(** * Clipped double Q-learning: the TD-target of [coax.td_learning]

    A shallow embedding of [src/coax/td_learning/_clippeddoubleqlearning.py]
    (class [ClippedDoubleQLearning]) and the properties its specification
    states about it.

    Conventions of the embedding.
    - Scalars are the elements of an arbitrary real field [R]
      (a [realFieldType]): array arithmetic is exact and rounding is
      outside the model.  The infinities and NaN of the floating-point
      arrays are added by the type [fp], for the last lines of
      [target_func], where a zero discount meets the Q-values.
    - A rank-1 array is a [seq R]; a rank-2 array is the list of its rows.
      The [ndim] assertions of the source are carried by these types.  The
      list without rows stands for a batch without rows of one or more
      columns, shape [(0, n)] with [0 < n]: the shape [(0, 0)], on which a
      reduction along the columns raises, is not represented.
    - A JAX/NumPy operation that raises (empty reduction, stacking arrays of
      different shapes, incompatible broadcast) returns [None].
    - The collaborators the class calls into (Haiku's PRNG sequence, JAX's
      differentiation, the parameter containers) are the fields of the
      class [Framework]; Q-functions and policies are records of the
      functions the source calls on them. *)

From HB Require Import structures.
From mathcomp Require Import ssreflect ssrfun ssrbool eqtype ssrnat seq bigop.
From mathcomp Require Import order ssralg ssrnum ssrint rat.
From Stdlib Require Import String.
From Stdlib Require Sorting.Permutation.

Set Implicit Arguments.
Unset Strict Implicit.
Unset Printing Implicit Defensive.

Import Order.TTheory GRing.Theory Num.Theory.
Local Open Scope ring_scope.

Declare Scope option_scope.
Delimit Scope option_scope with O.
Notation "'let*' x ':=' e 'in' k" := (obind (fun x => k) e)
  (at level 200, x pattern, e at level 200, k at level 200,
   format "'[v' 'let*'  x  ':='  e  'in' '/' k ']'") : option_scope.
Local Open Scope option_scope.

(** ** Arrays *)

Section Arrays.

Variable R : realFieldType.

(** Rank-1 and rank-2 arrays. *)
Definition vec : Type := seq R.
Definition mat : Type := seq (seq R).

(** A list of results, the first failure wins. *)
Fixpoint oseq (T : Type) (s : seq (option T)) : option (seq T) :=
  if s is o :: s' then
    let* x := o in let* r := oseq s' in Some (x :: r)
  else Some [::].

(** [x op y] on rank-1 arrays, with NumPy's broadcasting rule: the shapes
    agree, or one of them is [(1,)]; any other pair of shapes raises. *)
Definition broadcast (op : R -> R -> R) (x y : vec) : option vec :=
  if size x == size y then Some [seq op a.1 a.2 | a <- zip x y]
  else if size x == 1%N then Some [seq op (head 0 x) b | b <- y]
  else if size y == 1%N then Some [seq op a (head 0 y) | a <- x]
  else None.

(** [jnp.max] and [jnp.min] along one axis: a reduction without identity,
    it raises on an axis of length zero. *)
Definition amax (s : seq R) : option R :=
  if s is x :: s' then Some (foldl Num.max x s') else None.

Definition amin (s : seq R) : option R :=
  if s is x :: s' then Some (foldl Num.min x s') else None.

(** [X.max(axis=1, keepdims=True)]: one maximum per row. *)
Definition max_axis1 (X : mat) : option (seq R) := oseq [seq amax row | row <- X].

(** [(X == m).astype(X.dtype)], [m] of shape [(batch, 1)]. *)
Definition eq_keepdims (X : mat) (m : seq R) : mat :=
  [seq [seq (x == rm.2)%:R | x <- rm.1] | rm <- zip X m].

(** [X.sum(axis=1, keepdims=True)]. *)
Definition sum_axis1 (X : mat) : seq R := [seq foldr +%R 0 row | row <- X].

(** [X /= d], [d] of shape [(batch, 1)]. *)
Definition div_keepdims (X : mat) (d : seq R) : mat :=
  [seq [seq x / rd.2 | x <- rd.1] | rd <- zip X d].

(** Lines 235-236 of the source:
<<
    A_next = (Q_s_next == Q_s_next.max(axis=1, keepdims=True)).astype(Q_s_next.dtype)
    A_next /= A_next.sum(axis=1, keepdims=True)  # there may be ties
>> *)
Definition greedy_A_next (Q_s_next : mat) : option mat :=
  let* mx := max_axis1 Q_s_next in
  let A_next := eq_keepdims Q_s_next mx in
  Some (div_keepdims A_next (sum_axis1 A_next)).

(** [jnp.stack(l, axis=-1)] of rank-1 arrays: it needs at least one array
    and all of one shape [(B,)]; the result has shape [(B, len(l))]. *)
Definition stack_last (l : seq vec) : option mat :=
  if l is v :: l' then
    if all (fun w => size w == size v) l'
    then Some [seq [seq nth 0 w b | w <- l] | b <- iota 0 (size v)]
    else None
  else None.

(** [jnp.min(X, axis=-1)] of a rank-2 array. *)
Definition min_last (X : mat) : option vec := oseq [seq amin row | row <- X].

End Arrays.

(** ** Special floating-point values *)

(** The arrays of the source hold IEEE 754 numbers: next to the finite
    values there are the two infinities and NaN, which a Q-function can
    return and an inverse value transform can produce.  [fp R] adds them to
    the scalars.  Finite values are still computed with exactly (no
    rounding, no overflow, a single zero); the special values follow
    IEEE 754. *)
Inductive fp (R : Type) : Type := Fin (x : R) | PInf | NInf | NaN.

Arguments Fin {R} x.
Arguments PInf {R}.
Arguments NInf {R}.
Arguments NaN {R}.

Definition fp_eqb (R : eqType) (x y : fp R) : bool :=
  match x, y with
  | Fin a, Fin b => a == b
  | PInf, PInf | NInf, NInf | NaN, NaN => true
  | _, _ => false
  end.

Section SpecialValues.

Variable R : realFieldType.

Definition finite (x : fp R) : bool := if x is Fin _ then true else false.

(** The infinity of the given sign. *)
Definition inf_of (positive : bool) : fp R := if positive then PInf else NInf.

(** [x + y]: opposite infinities have no sum. *)
Definition fp_add (x y : fp R) : fp R :=
  match x, y with
  | NaN, _ | _, NaN => NaN
  | Fin a, Fin b => Fin (a + b)
  | PInf, NInf | NInf, PInf => NaN
  | PInf, _ | _, PInf => PInf
  | NInf, _ | _, NInf => NInf
  end.

(** [x * y]: zero times an infinity has no value. *)
Definition fp_mul (x y : fp R) : fp R :=
  match x, y with
  | NaN, _ | _, NaN => NaN
  | Fin a, Fin b => Fin (a * b)
  | Fin a, PInf | PInf, Fin a => if a == 0 then NaN else inf_of (0 < a)
  | Fin a, NInf | NInf, Fin a => if a == 0 then NaN else inf_of (a < 0)
  | PInf, PInf | NInf, NInf => PInf
  | PInf, NInf | NInf, PInf => NInf
  end.

(** The minimum as [jnp.min] takes it: NaN propagates. *)
Definition fp_min (x y : fp R) : fp R :=
  match x, y with
  | NaN, _ | _, NaN => NaN
  | NInf, _ | _, NInf => NInf
  | PInf, z | z, PInf => z
  | Fin a, Fin b => Fin (Num.min a b)
  end.

(** The array operations of lines 263-269 on such values, with the same
    shape rules as [broadcast], [stack_last] and [min_last]. *)
Definition fp_broadcast (op : fp R -> fp R -> fp R) (x y : seq (fp R)) :
    option (seq (fp R)) :=
  if size x == size y then Some [seq op a.1 a.2 | a <- zip x y]
  else if size x == 1%N then Some [seq op (head NaN x) b | b <- y]
  else if size y == 1%N then Some [seq op a (head NaN y) | a <- x]
  else None.

Definition fp_amin (s : seq (fp R)) : option (fp R) :=
  if s is x :: s' then Some (foldl fp_min x s') else None.

Definition fp_stack_last (l : seq (seq (fp R))) : option (seq (seq (fp R))) :=
  if l is v :: l' then
    if all (fun w => size w == size v) l'
    then Some [seq [seq nth NaN w b | w <- l] | b <- iota 0 (size v)]
    else None
  else None.

Definition fp_min_last (X : seq (seq (fp R))) : option (seq (fp R)) :=
  oseq [seq fp_amin row | row <- X].

(** Lines 263-265 on floating-point arrays. *)
Definition fp_stack_min (Q_sa_next_list : seq (seq (fp R))) :
    option (seq (fp R)) :=
  let* stacked := fp_stack_last Q_sa_next_list in fp_min_last stacked.

(** Lines 263-269 of [target_func] on floating-point arrays:
<<
    Q_sa_next_list = jnp.stack(Q_sa_next_list, axis=-1)
    Q_sa_next = jnp.min(Q_sa_next_list, axis=-1)
    f, f_inv = self.value_transform
    return f(Rn + In * f_inv(Q_sa_next))
>>
    [Q_sa_next_list] is the list the loops have collected: the values the
    target Q-functions assign at [S_next]. *)
Definition target_func_fp (f f_inv : fp R -> fp R) (Rn In : seq (fp R))
    (Q_sa_next_list : seq (seq (fp R))) : option (seq (fp R)) :=
  let* Q_sa_next_list := fp_stack_last Q_sa_next_list in
  let* Q_sa_next := fp_min_last Q_sa_next_list in
  let* In_Q := fp_broadcast fp_mul In [seq f_inv x | x <- Q_sa_next] in
  let* G := fp_broadcast fp_add Rn In_Q in
  Some [seq f x | x <- G].

(** A function of the scalars on floating-point values: it is applied to
    the finite ones, and NaN elsewhere. *)
Definition fp_lift (f : R -> R) (x : fp R) : fp R :=
  if x is Fin a then Fin (f a) else NaN.

End SpecialValues.

(** ** Collaborators *)

(** What the class uses of Haiku and JAX.  [PRNGSequence rng] is the
    sequence object built from a key, [next] draws its next sub-key and
    advances it; [grad_argnums1 L] is [jax.grad(L, argnums=1)]. *)
Class Framework (R : realFieldType) : Type := {
  key : Type;
  params : Type;
  fstate : Type;
  sbatch : Type;
  araw : Type;
  dparams : Type;
  rngseq : Type;
  PRNGSequence : key -> rngseq;
  next : rngseq -> key * rngseq;
  grad_argnums1 : (vec R -> vec R -> R) -> vec R -> vec R -> vec R
}.

Section Collaborators.

Context {R : realFieldType} {F : Framework R}.

(** [gym.spaces]: only [isinstance(space, Discrete)] is ever asked. *)
Inductive space : Type := Discrete (n : nat) | NotDiscrete.

Definition isinstance_Discrete (sp : space) : bool :=
  if sp is Discrete _ then true else false.

(** A [coax.Q]: the attributes the class reads.  Both function types
    return the value array and the new function state. *)
Record Q : Type := MkQ {
  action_space : space;
  action_preprocessor : araw -> mat R;
  function_type1 : params -> fstate -> key -> sbatch -> mat R -> bool -> vec R * fstate;
  function_type2 : params -> fstate -> key -> sbatch -> bool -> mat R * fstate
}.

(** A [coax.Policy]: [function] returns the distribution parameters,
    [proba_dist_mode] is [pi.proba_dist.mode]. *)
Record Policy : Type := MkPolicy {
  function : params -> fstate -> key -> sbatch -> bool -> dparams * fstate;
  proba_dist_mode : dparams -> mat R
}.

(** The dictionaries [target_params] and [target_state], keys
    ['q'], ['q_targ'] and ['pi_targ']. *)
Record bundle (T : Type) : Type := MkBundle {
  bundle_q : T;
  bundle_q_targ : seq T;
  bundle_pi_targ : seq T
}.

(** Python values as the constructor may receive them for its two list
    arguments: [None], a list or a tuple of objects, or anything else. *)
Inductive pyitem : Type := PyPolicy (pi : Policy) | PyQ (q : Q) | PyObject.

Inductive pyval : Type :=
  | PyNone
  | PyList (l : seq pyitem)
  | PyTuple (l : seq pyitem)
  | PyOther.

Definition isinstance_Policy (x : pyitem) : bool :=
  if x is PyPolicy _ then true else false.

Definition isinstance_Q (x : pyitem) : bool :=
  if x is PyQ _ then true else false.

(** [isinstance(v, (tuple, list))]. *)
Definition isinstance_tuple_list (v : pyval) : bool :=
  match v with PyList _ | PyTuple _ => true | _ => false end.

(** The elements of a list or tuple. *)
Definition items (v : pyval) : seq pyitem :=
  match v with PyList l | PyTuple l => l | _ => [::] end.

(** [len(v)], read only where [v] is known to be a list or a tuple. *)
Definition len (v : pyval) : nat := size (items v).

Definition Qs_of (v : pyval) : seq Q :=
  pmap (fun x => if x is PyQ q then Some q else None) (items v).

(** Iterating [v] as a sequence of policies: [None] when [v] is not a list
    or tuple, or holds an object without the policy attributes. *)
Definition policies_of (v : pyval) : option (seq Policy) :=
  if isinstance_tuple_list v
  then oseq [seq (if x is PyPolicy p then Some p else None) | x <- items v]
  else None.

End Collaborators.

(** [coax.reward_tracing.TransitionBatch]; the fields the class reads
    ([transition_batch[:2]] is [(S, A)], [transition_batch[3:6]] is
    [(Rn, In, S_next)]). *)
Module TransitionBatch.
Section Def.
Context {R : realFieldType} {F : Framework R}.
Record t : Type := Make {
  S : sbatch;
  A : araw;
  Rn : vec R;
  In : vec R;
  S_next : sbatch
}.
End Def.
End TransitionBatch.

(** ** Construction *)

Section Construction.

Context {R : realFieldType} {F : Framework R}.

(** The attributes of a constructed [ClippedDoubleQLearning].  The base
    class stores [q] (as [_f]), [loss_function] and [value_transform];
    the value transform is, in the specification's words, a pair of
    mutually inverse scalar functions: they act on arrays element by
    element.  [q_targ_list] has passed [_check_input_lists], so its
    elements are Q-functions; [pi_targ_list] is stored as supplied. *)
Record ClippedDoubleQLearning : Type := MkTD {
  q : Q;
  q_targ_list : seq Q;
  pi_targ_list : pyval;
  loss_function : vec R -> vec R -> R;
  value_transform : (R -> R) * (R -> R)
}.

(** The exceptions the constructor raises, with their messages (for the
    formatted ones, the text before [", got: ..."]). *)
Inductive exn : Type := TypeError (msg : string) | ValueError (msg : string).

(** Construction-time effects: the warnings emitted so far, and either the
    exception raised or the value computed. *)
Definition W (T : Type) : Type := (seq string * (exn + T))%type.

Definition wret (T : Type) (x : T) : W T := ([::], inr x).

Definition wbind (T U : Type) (m : W T) (k : T -> W U) : W U :=
  match m with
  | (w, inl e) => (w, inl e)
  | (w, inr x) => let: (w', r) := k x in (w ++ w', r)
  end.

Definition warn (msg : string) : W unit := ([:: msg], inr tt).

Definition raise (T : Type) (e : exn) : W T := ([::], inl e).

Definition when_raise (b : bool) (e : exn) : W unit :=
  if b then raise unit e else wret tt.

(** [for x in l: if c x: raise e]. *)
Fixpoint for_raise (T : Type) (l : seq T) (c : T -> bool) (e : exn) : W unit :=
  if l is x :: l' then wbind (when_raise (c x) e) (fun _ => for_raise l' c e)
  else wret tt.

Definition raised (T : Type) (m : W T) : bool :=
  if m.2 is inl _ then true else false.

(** [_check_input_lists], first half ([# check input: pi_targ_list]). *)
Definition check_pi_targ_list (q : Q) (pi_targ_list : pyval) : W unit :=
  if isinstance_Discrete (action_space q) then
    if pi_targ_list is PyNone then wret tt
    else warn "pi_targ_list is ignored, because action space is discrete"
  else
    wbind (when_raise (if pi_targ_list is PyNone then true else false)
             (TypeError "pi_targ_list must be provided if action space is not discrete"))
      (fun _ =>
    wbind (when_raise (~~ isinstance_tuple_list pi_targ_list)
             (TypeError "pi_targ_list must be a list or a tuple"))
      (fun _ =>
    wbind (when_raise (len pi_targ_list < 1)%N
             (ValueError "pi_targ_list cannot be empty"))
      (fun _ =>
    for_raise (items pi_targ_list) (fun pi => ~~ isinstance_Policy pi)
      (TypeError "all pi_targ in pi_targ_list must be a coax.Policy")))).

(** [_check_input_lists], second half ([# check input: q_targ_list]). *)
Definition check_q_targ_list (q_targ_list : pyval) : W unit :=
  wbind (when_raise (~~ isinstance_tuple_list q_targ_list)
           (TypeError "q_targ_list must be a list or a tuple"))
    (fun _ =>
  wbind (when_raise (nilp (items q_targ_list))
           (ValueError "q_targ_list cannot be empty"))
    (fun _ =>
  for_raise (items q_targ_list) (fun q_targ => ~~ isinstance_Q q_targ)
    (TypeError "all q_targ in q_targ_list must be a coax.Q"))).

Definition _check_input_lists (q : Q) (pi_targ_list q_targ_list : pyval) : W unit :=
  wbind (check_pi_targ_list q pi_targ_list) (fun _ =>
  check_q_targ_list q_targ_list).

(** [__init__], up to the consistency check (the closures defined after it
    are [td_error_func] and its siblings below).  [super().__init__] only
    stores its arguments; [loss_function] and [value_transform] are taken
    with their defaults already resolved, [optimizer] and the deleted
    [_f_targ] play no part in what follows. *)
Definition init (q : Q) (pi_targ_list q_targ_list : pyval)
    (loss_function : vec R -> vec R -> R)
    (value_transform : (R -> R) * (R -> R)) : W ClippedDoubleQLearning :=
  wbind (_check_input_lists q pi_targ_list q_targ_list) (fun _ =>
  let self_pi_targ_list :=
    if pi_targ_list is PyNone then PyList [::] else pi_targ_list in
  wbind
    (* consistency check *)
    (if isinstance_Discrete (action_space q) then
       when_raise (len q_targ_list < 2)%N
         (ValueError "len(q_targ_list) must be at least 2")
     else
       when_raise (len q_targ_list * len self_pi_targ_list < 2)%N
         (ValueError "len(q_targ_list) * len(pi_targ_list) must be at least 2"))
    (fun _ =>
  wret (MkTD q (Qs_of q_targ_list) self_pi_targ_list
          loss_function value_transform))).

End Construction.

(** ** The TD-target and the TD-error *)

Section Target.

Context {R : realFieldType} {F : Framework R}.

(** Computations that draw from a PRNG sequence and may raise. *)
Definition M (T : Type) : Type := rngseq -> option (T * rngseq).

Definition ret (T : Type) (x : T) : M T := fun rngs => Some (x, rngs).

Definition bind (T U : Type) (m : M T) (k : T -> M U) : M U :=
  fun rngs => if m rngs is Some (x, rngs') then k x rngs' else None.

(** [next(rngs)]. *)
Definition next_rngs : M key := fun rngs => Some (next rngs).

Definition lift (T : Type) (o : option T) : M T :=
  fun rngs => omap (fun x => (x, rngs)) o.

(** [for x in xs: ... Q_sa_next_list.append(...)]: the body returns what
    it appends. *)
Fixpoint for_append (X T : Type) (xs : seq X) (body : X -> M (seq T)) : M (seq T) :=
  if xs is x :: xs' then
    bind (body x) (fun l =>
    bind (for_append xs' body) (fun l' => ret (l ++ l')))
  else ret [::].

(** [list(zip(a, b, c))]. *)
Definition zip3 (T1 T2 T3 : Type) (a : seq T1) (b : seq T2) (c : seq T3) :
    seq (T1 * T2 * T3) := zip (zip a b) c.

(** The inner loop, shared by the two branches:
<<
    for q_j, params_j, state_j in qs:
        Q_sa_next, _ = q_j.function_type1(
            params_j, state_j, next(rngs), S_next, A_next, False)
        Q_sa_next_list.append(Q_sa_next)
>> *)
Definition evaluate_on (qs : seq (Q * params * fstate)) (S_next : sbatch)
    (A_next : mat R) : M (seq (vec R)) :=
  for_append qs (fun qps =>
    let: (q_j, params_j, state_j) := qps in
    bind next_rngs (fun rng =>
    let Q_sa_next := (function_type1 q_j params_j state_j rng S_next A_next false).1 in
    ret [:: Q_sa_next])).

(** The discrete branch: compute [A_next] from [q_i], evaluate on [q_j]. *)
Definition discrete_Q_sa_next_list (qs : seq (Q * params * fstate))
    (S_next : sbatch) : M (seq (vec R)) :=
  for_append qs (fun qps =>
    let: (q_i, params_i, state_i) := qps in
    bind next_rngs (fun rng =>
    let Q_s_next := (function_type2 q_i params_i state_i rng S_next false).1 in
    bind (lift (greedy_A_next Q_s_next)) (fun A_next =>
    evaluate_on qs S_next A_next))).

(** The other branch: compute [A_next] from [pi_i], evaluate on [q_j]. *)
Definition continuous_Q_sa_next_list (pis : seq (Policy * params * fstate))
    (qs : seq (Q * params * fstate)) (S_next : sbatch) : M (seq (vec R)) :=
  for_append pis (fun pps =>
    let: (pi_i, params_i, state_i) := pps in
    bind next_rngs (fun rng =>
    let dist_params := (function pi_i params_i state_i rng S_next false).1 in
    let A_next := proba_dist_mode pi_i dist_params in
    evaluate_on qs S_next A_next)).

(** The returned expression, line 269: [f(Rn + In * f_inv(Q_sa_next))]. *)
Definition bootstrapped (f f_inv : R -> R) (Rn In Q_sa_next : vec R) :
    option (vec R) :=
  let* In_Q := broadcast *%R In [seq f_inv x | x <- Q_sa_next] in
  let* G := broadcast +%R Rn In_Q in
  Some [seq f x | x <- G].

Definition Q_sa_next_list_of (self : ClippedDoubleQLearning)
    (target_params : bundle params) (target_state : bundle fstate)
    (S_next : sbatch) : M (seq (vec R)) :=
  if isinstance_Discrete (action_space (q self)) then
    let qs := zip3 (q_targ_list self) (bundle_q_targ target_params)
                (bundle_q_targ target_state) in
    discrete_Q_sa_next_list qs S_next
  else
    let qs := zip3 (q_targ_list self) (bundle_q_targ target_params)
                (bundle_q_targ target_state) in
    bind (lift (policies_of (pi_targ_list self))) (fun pi_list =>
    let pis := zip3 pi_list (bundle_pi_targ target_params)
                 (bundle_pi_targ target_state) in
    continuous_Q_sa_next_list pis qs S_next).

Definition target_func (self : ClippedDoubleQLearning)
    (target_params : bundle params) (target_state : bundle fstate)
    (rng : key) (transition_batch : TransitionBatch.t) : option (vec R) :=
  let rngs := PRNGSequence rng in
  let Rn := TransitionBatch.Rn transition_batch in
  let In := TransitionBatch.In transition_batch in
  let S_next := TransitionBatch.S_next transition_batch in
  let* r := Q_sa_next_list_of self target_params target_state S_next rngs in
  let Q_sa_next_list := r.1 in
  (* take the min to mitigate over-estimation *)
  let* Q_sa_next_list := stack_last Q_sa_next_list in
  let* Q_sa_next := min_last Q_sa_next_list in
  let: (f, f_inv) := value_transform self in
  bootstrapped f f_inv Rn In Q_sa_next.

(** [td_error_func], lines 186-193. *)
Definition td_error_func (self : ClippedDoubleQLearning)
    (params_ : params) (target_params : bundle params)
    (state : fstate) (target_state : bundle fstate)
    (rng : key) (transition_batch : TransitionBatch.t) : option (vec R) :=
  let rngs := PRNGSequence rng in
  let S := TransitionBatch.S transition_batch in
  let A := action_preprocessor (q self) (TransitionBatch.A transition_batch) in
  let: (rng1, rngs1) := next rngs in
  let* G := target_func self target_params target_state rng1 transition_batch in
  let: (rng2, _) := next rngs1 in
  let Qv := (function_type1 (q self) params_ state rng2 S A false).1 in
  let dL_dQ := grad_argnums1 (loss_function self) in
  Some [seq - x | x <- dL_dQ G Qv].

End Target.

(** ** Specification-level definitions *)

Section Specification.

Context {R : realFieldType} {F : Framework R}.

Definition onth (T : Type) (s : seq T) (i : nat) : option T := ohead (drop i s).

(** The sequence after [m] draws, and the [m]-th sub-key it yields
    (counting from 0). *)
Definition advance (m : nat) (rngs : rngseq) : rngseq :=
  iter m (fun s => (next s).2) rngs.

Definition draw (rngs : rngseq) (m : nat) : key := (next (advance m rngs)).1.

(** [m] is the minimum of the values [s]. *)
Definition least (m : R) (s : seq R) : Prop := m \in s /\ {in s, forall x, m <= x}.

(** [m] is the maximum of the values [s]. *)
Definition greatest (m : R) (s : seq R) : Prop := m \in s /\ {in s, forall x, x <= m}.

Definition targets (self : ClippedDoubleQLearning)
    (target_params : bundle params) (target_state : bundle fstate) :
    seq (Q * params * fstate) :=
  zip3 (q_targ_list self) (bundle_q_targ target_params) (bundle_q_targ target_state).

(** The next action chosen by selector [i]: the greedy distribution of the
    [i]-th target Q-function in the discrete case, the mode of the [i]-th
    target policy otherwise.  A selector and the evaluations that follow it
    take [(size qs).+1] consecutive sub-keys of the sequence. *)
Definition selector_A_next (self : ClippedDoubleQLearning)
    (target_params : bundle params) (target_state : bundle fstate)
    (rngs : rngseq) (S_next : sbatch) (i : nat) : option (mat R) :=
  let qs := targets self target_params target_state in
  let rng := draw rngs (i * (size qs).+1) in
  if isinstance_Discrete (action_space (q self)) then
    let* qps := onth qs i in
    let: (q_i, params_i, state_i) := qps in
    greedy_A_next (function_type2 q_i params_i state_i rng S_next false).1
  else
    let* pi_list := policies_of (pi_targ_list self) in
    let* pps := onth (zip3 pi_list (bundle_pi_targ target_params)
                        (bundle_pi_targ target_state)) i in
    let: (pi_i, params_i, state_i) := pps in
    Some (proba_dist_mode pi_i (function pi_i params_i state_i rng S_next false).1).

(** The number of selectors: target Q-functions in the discrete case,
    target policies otherwise. *)
Definition selector_count (self : ClippedDoubleQLearning)
    (target_params : bundle params) (target_state : bundle fstate) : option nat :=
  if isinstance_Discrete (action_space (q self)) then
    Some (size (targets self target_params target_state))
  else
    let* pi_list := policies_of (pi_targ_list self) in
    Some (size (zip3 pi_list (bundle_pi_targ target_params)
                  (bundle_pi_targ target_state))).

(** The evaluation of the ordered pair (selector [i], evaluator [j]): the
    [j]-th target Q-function at [S_next] and the next action of selector
    [i]. *)
Definition pair_evaluation (self : ClippedDoubleQLearning)
    (target_params : bundle params) (target_state : bundle fstate)
    (rngs : rngseq) (S_next : sbatch) (i j : nat) : option (vec R) :=
  let qs := targets self target_params target_state in
  let* A_i := selector_A_next self target_params target_state rngs S_next i in
  let* qps := onth qs j in
  let: (q_j, params_j, state_j) := qps in
  Some (function_type1 q_j params_j state_j
          (draw rngs (i * (size qs).+1 + j.+1)) S_next A_i false).1.

(** Lines 263-265: stack the evaluations and take the row-wise minimum. *)
Definition stack_min (Q_sa_next_list : seq (vec R)) : option (vec R) :=
  let* stacked := stack_last Q_sa_next_list in min_last stacked.

(** The shape shared by the two branches of [target_func]: every selector
    draws a sub-key, chooses [A_next], and is evaluated on all of [qs]. *)
Definition select_evaluate (X : Type) (choose : X -> key -> option (mat R))
    (sels : seq X) (qs : seq (Q * params * fstate)) (S_next : sbatch) :
    M (seq (vec R)) :=
  for_append sels (fun x =>
    bind next_rngs (fun rng =>
    bind (lift (choose x rng)) (fun A_next => evaluate_on qs S_next A_next))).

Definition choose_discrete (S_next : sbatch) (x : Q * params * fstate)
    (rng : key) : option (mat R) :=
  greedy_A_next (function_type2 x.1.1 x.1.2 x.2 rng S_next false).1.

Definition choose_continuous (S_next : sbatch) (x : Policy * params * fstate)
    (rng : key) : option (mat R) :=
  Some (proba_dist_mode x.1.1 (function x.1.1 x.1.2 x.2 rng S_next false).1).

(** The specification's single-network n-step bootstrapped target,
    [f(Rn + In * f_inv(q(S_next, argmax_a q(S_next, a))))], written out
    from its words and not from the code.

    [argmax row] is the set of the actions whose value no other action of
    the row exceeds; [argmax_action] is the action it stands for, as the
    array a Q-function is evaluated at: the one-hot encoding of the
    maximiser, and equal weights on the maximisers when there are
    several. *)
Definition argmax (row : seq R) : seq nat :=
  [seq a <- iota 0 (size row) | all (fun x => x <= nth 0 row a) row].

Definition uniform_on (acts : seq nat) (n : nat) : vec R :=
  mkseq (fun a => if a \in acts then ((size acts)%:R)^-1 else 0) n.

Definition argmax_action (Q_s : mat R) : mat R :=
  [seq uniform_on (argmax row) (size row) | row <- Q_s].

(** Row [b] of the target is [f(Rn[b] + In[b] * f_inv(Q[b]))], for the
    state-action values [Q] of the next state and action. *)
Definition single_network_target (value_transform : (R -> R) * (R -> R))
    (Rn In Q_sa_next : vec R) : vec R :=
  let: (f, f_inv) := value_transform in
  mkseq (fun b => f (nth 0 Rn b + nth 0 In b * f_inv (nth 0 Q_sa_next b)))
        (size Rn).

(** Two target Q-functions (each with its parameters and function state)
    are extensionally identical: on every input, the sub-key included,
    they return the same state-action values and the same per-action
    values. *)
Definition extensionally_identical (x y : Q * params * fstate) : Prop :=
  (forall rng S A,
      (function_type1 x.1.1 x.1.2 x.2 rng S A false).1
      = (function_type1 y.1.1 y.1.2 y.2 rng S A false).1)
  /\ (forall rng S,
      (function_type2 x.1.1 x.1.2 x.2 rng S false).1
      = (function_type2 y.1.1 y.1.2 y.2 rng S false).1).

(** Two target Q-functions return the same state-action values and the
    same per-action values whatever sub-keys each of them is handed: they
    are extensionally identical and neither depends on its sub-key. *)
Definition same_values (x y : Q * params * fstate) : Prop :=
  (forall rng rng' S A,
      (function_type1 x.1.1 x.1.2 x.2 rng S A false).1
      = (function_type1 y.1.1 y.1.2 y.2 rng' S A false).1)
  /\ (forall rng rng' S,
      (function_type2 x.1.1 x.1.2 x.2 rng S false).1
      = (function_type2 y.1.1 y.1.2 y.2 rng' S false).1).

(** The values of a target Q-function do not depend on the sub-key it is
    handed. *)
Definition seed_independent (x : Q * params * fstate) : Prop := same_values x x.

(** [self] with its target Q-functions, their parameters and their
    function states replaced by the components of [qs]. *)
Definition with_targets (self : ClippedDoubleQLearning)
    (qs : seq (Q * params * fstate)) : ClippedDoubleQLearning :=
  MkTD (q self) [seq x.1.1 | x <- qs] (pi_targ_list self)
    (loss_function self) (value_transform self).

Definition with_q_targ (T U V : Type) (b : bundle U) (qs : seq (T * U * V)) : bundle U :=
  MkBundle (bundle_q b) [seq x.1.2 | x <- qs] (bundle_pi_targ b).

Definition with_q_targ_state (T U V : Type) (b : bundle V) (qs : seq (T * U * V)) : bundle V :=
  MkBundle (bundle_q b) [seq x.2 | x <- qs] (bundle_pi_targ b).

End Specification.

(** ** The other closures and properties of the class *)

(** The attributes [params] and [function_state] of the collaborators, as
    they stand when the properties [target_params] and
    [target_function_state] are read. *)
Class Attributes (R : realFieldType) (F : Framework R) : Type := {
  Q_params : Q -> params;
  Q_function_state : Q -> fstate;
  Policy_params : Policy -> params;
  Policy_function_state : Policy -> fstate
}.

Section Closures.

Context {R : realFieldType} {F : Framework R}.

(** [loss_func], lines 140-147.  The result is
    [loss, (loss, G, Q, S, A, state_new)]. *)
Definition loss_func (self : ClippedDoubleQLearning)
    (params_ : params) (target_params : bundle params)
    (state : fstate) (target_state : bundle fstate)
    (rng : key) (transition_batch : TransitionBatch.t) :
    option (R * (R * vec R * vec R * sbatch * mat R * fstate)) :=
  let rngs := PRNGSequence rng in
  let S := TransitionBatch.S transition_batch in
  let A := action_preprocessor (q self) (TransitionBatch.A transition_batch) in
  let: (rng1, rngs1) := next rngs in
  let* G := target_func self target_params target_state rng1 transition_batch in
  let: (rng2, _) := next rngs1 in
  let: (Qv, state_new) := function_type1 (q self) params_ state rng2 S A true in
  let loss := loss_function self G Qv in
  Some (loss, (loss, G, Qv, S, A, state_new)).

(** The target-network estimate of [grads_and_metrics_func], lines 156-167:
<<
    Q_targ_list = []
    qs = list(zip(self.q_targ_list, target_params['q_targ'], target_state['q_targ']))
    for q, pm, st in qs:
        Q_targ, _ = q.function_type1(pm, st, next(rngs), S, A, False)
        Q_targ_list.append(Q_targ)
    Q_targ_list = jnp.stack(Q_targ_list, axis=-1)
    Q_targ = jnp.min(Q_targ_list, axis=-1)
>>
    It runs on the sequence [rngs] as the gradient computation leaves it. *)
Definition Q_targ_estimate (self : ClippedDoubleQLearning)
    (target_params : bundle params) (target_state : bundle fstate)
    (S : sbatch) (A : mat R) : M (vec R) :=
  let qs := zip3 (q_targ_list self) (bundle_q_targ target_params)
              (bundle_q_targ target_state) in
  bind (for_append qs (fun qps =>
          let: (q_, pm, st) := qps in
          bind next_rngs (fun rng =>
          let Q_targ := (function_type1 q_ pm st rng S A false).1 in
          ret [:: Q_targ])))
    (fun Q_targ_list =>
  lift (let* Q_targ_list := stack_last Q_targ_list in
        min_last Q_targ_list)).

(** The dictionaries built by the properties [target_params] and
    [target_function_state], lines 208-220, for an object whose
    [pi_targ_list] holds the policies [pi_list]. *)
Definition target_params {Att : Attributes F} (self : ClippedDoubleQLearning)
    (pi_list : seq Policy) : bundle params :=
  MkBundle (Q_params (q self))
    [seq Q_params q_ | q_ <- q_targ_list self]
    [seq Policy_params pi | pi <- pi_list].

Definition target_function_state {Att : Attributes F}
    (self : ClippedDoubleQLearning) (pi_list : seq Policy) : bundle fstate :=
  MkBundle (Q_function_state (q self))
    [seq Q_function_state q_ | q_ <- q_targ_list self]
    [seq Policy_function_state pi | pi <- pi_list].

End Closures.

(** ** A concrete instance *)

(** Exact rational arrays, integer keys drawn in increasing order, and
    tabular collaborators: a Q-function given by one row of per-action
    values, whose state-action form is the inner product of the action
    weights with that row, and a policy with a constant mode.  A state
    batch is represented by its number of rows. *)
Module Example.

(** The differentiation operator of the instance is only exercised on half
    the squared error [\sum_i (Q_i - G_i)^2 / 2], whose gradient in the
    prediction is [Q - G]. *)
Definition framework : Framework rat := {|
  key := nat;
  params := unit;
  fstate := unit;
  sbatch := nat;
  araw := seq nat;
  dparams := mat rat;
  rngseq := nat;
  PRNGSequence := fun rng => rng;
  next := fun rngs => (rngs, rngs.+1);
  grad_argnums1 := fun _ G Qv => [seq a.1 - a.2 | a <- zip Qv G]
|}.

#[global] Existing Instance framework.

Definition one_hot (n a : nat) : seq rat := [seq (i == a)%:R | i <- iota 0 n].

Definition dot (x y : seq rat) : rat := foldr +%R 0 [seq a.1 * a.2 | a <- zip x y].

Definition tabular_Q (values : seq rat) : Q :=
  MkQ (Discrete (size values))
      (fun A : araw => [seq one_hot (size values) a | a <- A])
      (fun _ _ _ _ A _ => ([seq dot row values | row <- A], tt))
      (fun _ _ _ S _ => (nseq S values, tt)).

Definition linear_Q (weights : seq rat) : Q :=
  MkQ NotDiscrete
      (fun A : araw => [seq [:: a%:R] | a <- A])
      (fun _ _ _ _ A _ => ([seq dot row weights | row <- A], tt))
      (fun _ _ _ _ _ => ([::], tt)).

Definition constant_policy (action : seq rat) : Policy :=
  MkPolicy (fun _ _ _ S _ => (nseq S action, tt)) (fun d : dparams => d).

Definition half_squared_error (G Qv : vec rat) : rat :=
  foldr +%R 0 [seq (a.1 - a.2) ^+ 2 / 2%:R | a <- zip Qv G].

Definition identity_transform : (rat -> rat) * (rat -> rat) := (id, id).

Definition q12 : Q := tabular_Q [:: 1; 2%:R].
Definition q31 : Q := tabular_Q [:: 3%:R; 1].

Definition two_units : bundle unit := MkBundle tt [:: tt; tt] [:: tt].

(** A discrete learner with targets [q12] and [q31]. *)
Definition discrete_td : ClippedDoubleQLearning :=
  MkTD q12 [:: q12; q31] (PyList [::]) half_squared_error identity_transform.

(** A discrete learner with twice the target [q12]. *)
Definition twin_td : ClippedDoubleQLearning :=
  MkTD q12 [:: q12; q12] (PyList [::]) half_squared_error identity_transform.

Definition q_lin1 : Q := linear_Q [:: 1].
Definition q_lin2 : Q := linear_Q [:: 2%:R].
Definition pi3 : Policy := constant_policy [:: 3%:R].

(** The list arguments of the constructor used below. *)
Definition one_Q : pyval := PyList [:: PyQ q12].
Definition two_Qs : pyval := PyList [:: PyQ q12; PyQ q31].
Definition two_linear_Qs : pyval := PyList [:: PyQ q_lin1; PyQ q_lin2].
Definition one_policy : pyval := PyList [:: PyPolicy pi3].

(** A learner on a one-dimensional continuous action space. *)
Definition continuous_td : ClippedDoubleQLearning :=
  MkTD q_lin1 [:: q_lin1; q_lin2] one_policy
    half_squared_error identity_transform.

(** Two transitions, the second one terminal. *)
Definition batch2 : TransitionBatch.t :=
  TransitionBatch.Make 2 [:: 0%N; 1%N] [:: 1; 5%:R] [:: 1 / 2%:R; 0] 2.

(** The four transitions of the end-to-end scenario. *)
Definition batch4 : TransitionBatch.t :=
  TransitionBatch.Make 4 [:: 0%N; 1%N; 1%N; 0%N] (nseq 4 0)
    (nseq 4 (99%:R / 100%:R)) 4.

(** The targets of [discrete_td] on [batch2]: the pair evaluations are
    [2], [1], [1] and [3] on both rows, their minimum is [1]. *)
Definition G2 : vec rat := [:: 3%:R / 2%:R; 5%:R].

(** The targets of [continuous_td] on [batch2]: the mode of the policy is
    the action [3], valued [3] and [6] by the two target Q-functions. *)
Definition G2_continuous : vec rat := [:: 5%:R / 2%:R; 5%:R].

(** The targets [q12] and [q31] with their parameters and states, in the
    two orders. *)
Definition targets_a : seq (Q * params * fstate) :=
  [:: (q12, tt, tt); (q31, tt, tt)].

Definition targets_b : seq (Q * params * fstate) :=
  [:: (q31, tt, tt); (q12, tt, tt)].

(** Per-action values with a two-way tie on the first row, and the
    next-action distribution built from them. *)
Definition values_tie : mat rat := [:: [:: 1; 2%:R; 2%:R]; [:: 3%:R; 0; 1]].


(** The attributes of the tabular collaborators: they carry no
    parameters and no state. *)
Definition attributes : Attributes framework := {|
  Q_params := fun _ => tt;
  Q_function_state := fun _ => tt;
  Policy_params := fun _ => tt;
  Policy_function_state := fun _ => tt
|}.

#[global] Existing Instance attributes.

Definition one_linear_Q : pyval := PyList [:: PyQ q_lin1].

(** What the loops of [target_func] collect for [discrete_td] on
    [batch2]: selector [q12] chooses action 1, selector [q31] action 0. *)
Definition evaluations2 : seq (vec rat) :=
  [:: [:: 2%:R; 2%:R]; [:: 1; 1]; [:: 1; 1]; [:: 3%:R; 3%:R]].

(** The preprocessed actions of [batch2] and the target-network estimate
    of [discrete_td] there: [q12] gives [1, 2], [q31] gives [3, 1]. *)
Definition actions2 : mat rat := [:: [:: 1; 0]; [:: 0; 1]].

Definition Q_targ2 : vec rat := [:: 1; 1].

(** [discrete_td] with a third target Q-function. *)
Definition discrete_td_more : ClippedDoubleQLearning :=
  MkTD (q discrete_td) (q_targ_list discrete_td ++ [:: q12])
    (pi_targ_list discrete_td) (loss_function discrete_td)
    (value_transform discrete_td).

(** A Q-function whose state-action values depend on the sub-key it is
    handed: the value of row [b] is one higher when [b + k] is odd, [k]
    being the sub-key.  Its per-action values are [1] and [2]. *)
Definition noise (k b : nat) : rat := (odd (b + k))%:R.

Definition noisy_Q : Q :=
  MkQ (Discrete 2)
      (fun A : araw => [seq one_hot 2 a | a <- A])
      (fun _ _ k _ A _ =>
         ([seq dot (nth [::] A b) [:: 1; 2%:R] + noise k b
          | b <- iota 0 (size A)], tt))
      (fun _ _ _ S _ => (nseq S [:: 1; 2%:R], tt)).

(** A discrete learner with twice the target [noisy_Q]. *)
Definition noisy_td : ClippedDoubleQLearning :=
  MkTD noisy_Q [:: noisy_Q; noisy_Q] (PyList [::]) half_squared_error
    identity_transform.

(** The returns and discounts of [batch2] as floating-point arrays, and
    two lists of pair evaluations for them: finite ones, and ones that are
    infinite on the terminal row. *)
Definition Rn_fp : seq (fp rat) := [seq Fin x | x <- TransitionBatch.Rn batch2].

Definition In_fp : seq (fp rat) := [seq Fin x | x <- TransitionBatch.In batch2].

Definition evaluations_finite : seq (seq (fp rat)) :=
  [:: [:: Fin 2%:R; Fin 7%:R]; [:: Fin 1; Fin 9%:R]].

Definition evaluations_infinite : seq (seq (fp rat)) :=
  [:: [:: Fin 2%:R; PInf]; [:: Fin 1; PInf]].

Definition G_finite : seq (fp rat) := [:: Fin (3%:R / 2%:R); Fin 5%:R].

Definition G_infinite : seq (fp rat) := [:: Fin (3%:R / 2%:R); NaN].

End Example.

(** * Properties *)

(** ** Arrays *)

Section ArrayTheory.

Variable R : realFieldType.
Implicit Types (s t : seq R) (x y m : R) (X : mat R).

Lemma oseq_map_some (T U : Type) (f : T -> option U) (l : seq T) (r : seq U) :
  oseq [seq f a | a <- l] = Some r ->
  size r = size l /\
  forall (a0 : T) (u0 : U) i, (i < size l)%N -> f (nth a0 l i) = Some (nth u0 r i).
Proof.
elim: l r => [|a l IH] r /=; first by case=> <-.
case Ea: (f a) => [u|] //=; case E: (oseq _) => [r'|] //= [<-].
have [sz H] := IH _ E; split; first by rewrite /= sz.
by move=> a0 u0 [|i] //=; rewrite ltnS; apply: H.
Qed.

Lemma oseq_map_total (T U : Type) (f : T -> option U) (g : T -> U) (l : seq T) :
  (forall a, f a = Some (g a)) -> oseq [seq f a | a <- l] = Some [seq g a | a <- l].
Proof. by move=> H; elim: l => [|a l IH] //=; rewrite H IH. Qed.

Lemma foldl_min_least x s : least (foldl Num.min x s) (x :: s).
Proof.
elim: s x => [|y s IH] x /=.
  by split; [rewrite mem_head | move=> z; rewrite inE => /eqP ->].
have [Hin Hle] := IH (Num.min x y); split.
  move: Hin; rewrite !inE => /orP [/eqP ->|->]; last by rewrite !orbT.
  by case: (leP x y) => _; rewrite eqxx ?orbT.
move=> z; rewrite !inE => Hz.
have Hm : foldl Num.min (Num.min x y) s <= Num.min x y.
  by apply: Hle; rewrite mem_head.
move: Hm; rewrite le_min => /andP [Hx Hy].
case/or3P: Hz => [/eqP ->|/eqP ->|Hz] //.
by apply: Hle; rewrite inE Hz orbT.
Qed.

Lemma foldl_max_greatest x s : greatest (foldl Num.max x s) (x :: s).
Proof.
elim: s x => [|y s IH] x /=.
  by split; [rewrite mem_head | move=> z; rewrite inE => /eqP ->].
have [Hin Hle] := IH (Num.max x y); split.
  move: Hin; rewrite !inE => /orP [/eqP ->|->]; last by rewrite !orbT.
  by case: (leP x y) => _; rewrite eqxx ?orbT.
move=> z; rewrite !inE => Hz.
have Hm : Num.max x y <= foldl Num.max (Num.max x y) s.
  by apply: Hle; rewrite mem_head.
move: Hm; rewrite ge_max => /andP [Hx Hy].
case/or3P: Hz => [/eqP ->|/eqP ->|Hz] //.
by apply: Hle; rewrite inE Hz orbT.
Qed.

Lemma amin_least s m : amin s = Some m -> least m s.
Proof. by case: s => [|x s] //= [<-]; apply: foldl_min_least. Qed.

Lemma amax_greatest s m : amax s = Some m -> greatest m s.
Proof. by case: s => [|x s] //= [<-]; apply: foldl_max_greatest. Qed.

Lemma least_uniq s m m' : least m s -> least m' s -> m = m'.
Proof.
by case=> [i1 l1] [i2 l2]; apply: le_anti; rewrite (l1 _ i2) (l2 _ i1).
Qed.

Lemma least_amin s m : least m s -> amin s = Some m.
Proof.
case: s => [|x s]; first by case.
move=> H /=; congr Some; exact: least_uniq (foldl_min_least x s) H.
Qed.

Lemma least_eq_mem s t m : s =i t -> least m s -> least m t.
Proof.
by move=> E [Hin Hle]; split; [rewrite -E | move=> z; rewrite -E; apply: Hle].
Qed.

Lemma amin_eq_mem s t : s =i t -> amin s = amin t.
Proof.
move=> E; case Es: (amin s) => [m|].
  by rewrite (least_amin (least_eq_mem E (amin_least Es))).
case: s E Es => [|x s] // E _; case: t E => [|y t] // /(_ y).
by rewrite mem_head in_nil.
Qed.


(** *** Broadcasting *)

Lemma broadcast_same (op : R -> R -> R) s t :
  size s = size t -> broadcast op s t = Some [seq op a.1 a.2 | a <- zip s t].
Proof. by rewrite /broadcast => ->; rewrite eqxx. Qed.

Lemma broadcast_size (op : R -> R -> R) s t r :
  broadcast op s t = Some r ->
  size r = if size s == 1%N then size t else size s.
Proof.
rewrite /broadcast; case: (eqVneq (size s) (size t)) => [E|_].
  by case=> <-; rewrite size_map size_zip E minnn; case: ifP => // /eqP <-.
case: (eqVneq (size s) 1%N) => [_|_]; first by case=> <-; rewrite size_map.
by case: ifP => // _ [<-]; rewrite size_map.
Qed.

Lemma broadcast_nth (op : R -> R -> R) s t r b :
  broadcast op s t = Some r -> (b < size r)%N ->
  nth 0 r b = op (nth 0 s (if size s == 1%N then 0%N else b))
                 (nth 0 t (if size t == 1%N then 0%N else b)).
Proof.
rewrite /broadcast; case: (eqVneq (size s) (size t)) => [E|NE].
  case=> <-; rewrite size_map size_zip E minnn => Hb.
  rewrite (nth_map (0, 0)) ?size_zip ?E ?minnn // nth_zip //=.
  by case: (eqVneq (size t) 1%N) Hb => // ->; case: b.
case: (eqVneq (size s) 1%N) => [E1|NE1].
  case=> <-; rewrite size_map => Hb; rewrite (nth_map 0) // nth0.
  by move: NE; rewrite E1 eq_sym => /negbTE ->.
case: (eqVneq (size t) 1%N) => // E1 [<-]; rewrite size_map => Hb.
by rewrite (nth_map 0) // nth0.
Qed.

(** *** The greedy next-action distribution *)

Lemma sum_indicator s m :
  \sum_(a <- [seq (x == m)%:R | x <- s]) a = (count_mem m s)%:R :> R.
Proof.
rewrite big_map; elim: s => [|x s IH] /=; first by rewrite big_nil.
by rewrite big_cons IH natrD.
Qed.



Lemma max_axis1_nth X mx :
  max_axis1 X = Some mx ->
  size mx = size X /\
  forall b, (b < size X)%N -> amax (nth [::] X b) = Some (nth 0 mx b).
Proof.
by move=> /oseq_map_some [sz H]; split=> // b Hb; apply: H.
Qed.

Lemma nth_eq_keepdims X mx b :
  size mx = size X -> (b < size X)%N ->
  nth [::] (eq_keepdims X mx) b
  = [seq (x == nth 0 mx b)%:R | x <- nth [::] X b].
Proof.
move=> sz Hb; rewrite /eq_keepdims (nth_map ([::], 0)) ?size_zip ?sz ?minnn //.
by rewrite nth_zip.
Qed.

Lemma nth_div_keepdims X d b :
  size d = size X -> (b < size X)%N ->
  nth [::] (div_keepdims X d) b = [seq x / nth 0 d b | x <- nth [::] X b].
Proof.
move=> sz Hb; rewrite /div_keepdims (nth_map ([::], 0)) ?size_zip ?sz ?minnn //.
by rewrite nth_zip.
Qed.

Lemma size_eq_keepdims X mx : size mx = size X -> size (eq_keepdims X mx) = size X.
Proof. by move=> sz; rewrite size_map size_zip sz minnn. Qed.

Lemma size_div_keepdims X d : size d = size X -> size (div_keepdims X d) = size X.
Proof. by move=> sz; rewrite size_map size_zip sz minnn. Qed.

(** Row [b] of the distribution, in closed form. *)
Lemma greedy_A_next_nth X A b :
  greedy_A_next X = Some A -> (b < size X)%N ->
  exists2 mx, greatest mx (nth [::] X b)
    & nth [::] A b
      = [seq (x == mx)%:R / (count_mem mx (nth [::] X b))%:R | x <- nth [::] X b].
Proof.
rewrite /greedy_A_next; case E: (max_axis1 X) => [mx|] //= [<-] Hb.
have [sz Hmx] := max_axis1_nth E.
exists (nth 0 mx b); first exact: amax_greatest (Hmx _ Hb).
have szE := size_eq_keepdims sz.
have szS : size (sum_axis1 (eq_keepdims X mx)) = size (eq_keepdims X mx).
  by rewrite /sum_axis1 size_map.
rewrite nth_div_keepdims ?szS ?szE //.
rewrite nth_eq_keepdims // -map_comp.
rewrite /sum_axis1 (nth_map [::]) ?szE // nth_eq_keepdims // foldrE sum_indicator.
exact: eq_map.
Qed.

Lemma size_greedy_A_next X A : greedy_A_next X = Some A -> size A = size X.
Proof.
rewrite /greedy_A_next; case E: (max_axis1 X) => [mx|] //= [<-].
have [sz _] := max_axis1_nth E.
have szE := size_eq_keepdims sz.
by rewrite size_div_keepdims // /sum_axis1 size_map.
Qed.

(** The distribution exists exactly when no row is empty. *)
Lemma greedy_A_next_some X :
  all (fun row => row != [::]) X -> exists A, greedy_A_next X = Some A.
Proof.
move=> H; rewrite /greedy_A_next.
suff [mx ->] : exists mx, max_axis1 X = Some mx by eexists.
rewrite /max_axis1; elim: X H => [|row X IH] /=; first by exists [::].
case: row => [|x row] //= /IH [mx ->] /=.
by eexists.
Qed.

(** *** Stacking and the row-wise minimum *)

Lemma stack_min_least (l : seq (vec R)) X Qmin :
  stack_last l = Some X -> min_last X = Some Qmin ->
  [/\ l != [::], {in l, forall w, size w = size Qmin}
    & forall b, (b < size Qmin)%N -> least (nth 0 Qmin b) [seq nth 0 w b | w <- l]].
Proof.
case: l => [|v l] //=; case: ifP => // /allP Hsz [<-] /oseq_map_some [sz H].
have szQ : size Qmin = size v by rewrite sz size_map size_iota.
split=> // [w|b Hb].
  by rewrite inE szQ => /orP [/eqP -> //|/Hsz /eqP].
rewrite szQ in Hb.
have := H [::] 0 b; rewrite size_map size_iota => /(_ Hb).
rewrite (nth_map 0%N) ?size_iota // nth_iota // add0n.
exact: amin_least.
Qed.

Lemma stack_min_some (l : seq (vec R)) X :
  stack_last l = Some X -> exists Qmin, min_last X = Some Qmin.
Proof.
case: l => [|v l] //=; case: ifP => // _ [<-].
rewrite /min_last -map_comp.
by rewrite (@oseq_map_total _ _ _ (fun b => foldl Num.min (nth 0 v b) [seq nth 0 w b | w <- l])); eexists.
Qed.

Lemma stack_minP (l : seq (vec R)) Qmin :
  stack_min l = Some Qmin <->
  [/\ l != [::], {in l, forall w, size w = size Qmin}
    & forall b, (b < size Qmin)%N -> least (nth 0 Qmin b) [seq nth 0 w b | w <- l]].
Proof.
rewrite /stack_min; split.
  by case Es: (stack_last l) => [X|] //=; apply: stack_min_least.
case=> Hne Hsz Hleast.
case Es: (stack_last l) => [X|] /=; last first.
  case: l Es Hne Hsz {Hleast} => [|v l] //=; case: ifP => // /allPn [w Hw NE] _ _ Hsz.
  by move: NE; rewrite !Hsz ?eqxx // inE ?eqxx ?Hw ?orbT.
have [Qmin' Em] := stack_min_some Es; rewrite Em; congr Some.
have [_ Hsz' Hleast'] := stack_min_least Es Em.
have szE : size Qmin' = size Qmin.
  by case: l Hne Hsz Hsz' {Es Hleast Hleast'} => [|v l] // _ H H'; rewrite -(H v) ?(H' v) ?mem_head.
apply: (@eq_from_nth _ 0) => // b Hb.
by apply: least_uniq (Hleast' _ Hb) (Hleast _ _); rewrite -szE.
Qed.

(** The row-wise minimum of the stack depends only on which arrays are
    stacked, not on their order or multiplicity. *)
Lemma stack_min_eq_mem (l l' : seq (vec R)) : l =i l' -> stack_min l = stack_min l'.
Proof.
have sub (l1 l2 : seq (vec R)) Qmin :
    l1 =i l2 -> stack_min l1 = Some Qmin -> stack_min l2 = Some Qmin.
  move=> E /stack_minP [Hne Hsz Hleast]; apply/stack_minP; split.
  - by case: l1 l2 E Hne {Hsz Hleast} => [|v l1] [|v' l2] // /(_ v); rewrite mem_head.
  - by move=> w; rewrite -E; apply: Hsz.
  - move=> b Hb; apply: least_eq_mem (Hleast _ Hb) => x.
    by apply/mapP/mapP => -[w Hw ->]; exists w; rewrite // ?E // -E.
move=> E; case E1: (stack_min l) => [Qmin|]; first by rewrite (sub _ _ _ E E1).
case E2: (stack_min l') => [Qmin|] //.
have E' : l' =i l by move=> x; rewrite E.
by rewrite (sub _ _ _ E' E2) in E1.
Qed.

Lemma stack_min_const (l : seq (vec R)) (v : vec R) :
  l != [::] -> {in l, forall e, e = v} -> stack_min l = Some v.
Proof.
move=> Hne Hall; apply/stack_minP; split=> // [w /Hall -> //|b Hb].
split; last by move=> x /mapP [w /Hall -> ->].
case: l Hne Hall => [|w l] // _ Hall; apply/mapP; exists w; rewrite ?mem_head //.
by rewrite (Hall w) ?mem_head.
Qed.

(** *** The argmax of a row *)

Lemma mem_argmax s m a :
  greatest m s -> (a < size s)%N -> (a \in argmax s) = (nth 0 s a == m).
Proof.
case=> Hin Hle Ha; rewrite mem_filter mem_iota /= add0n Ha andbT.
apply/allP/eqP => [H|-> //].
by apply/eqP; rewrite eq_le Hle ?mem_nth // H.
Qed.

Lemma size_argmax s m : greatest m s -> size (argmax s) = count_mem m s.
Proof.
move=> Hm; rewrite size_filter.
have -> : count (fun a => all (fun x => x <= nth 0 s a) s) (iota 0 (size s))
          = count (preim (nth 0 s) (pred1 m)) (iota 0 (size s)).
  apply: eq_in_count => a; rewrite mem_iota /= add0n => Ha.
  have := mem_argmax Hm Ha.
  by rewrite mem_filter mem_iota /= add0n Ha andbT.
by rewrite -count_map -/(mkseq _ _) mkseq_nth.
Qed.

(** On a batch whose rows are not empty, lines 235-236 build the action
    that [argmax_action] describes. *)
Lemma greedy_A_next_argmax X :
  all (fun row => row != [::]) X -> greedy_A_next X = Some (argmax_action X).
Proof.
move=> /greedy_A_next_some [A E]; rewrite E; congr Some.
have sz := size_greedy_A_next E.
apply: (@eq_from_nth _ [::]); first by rewrite sz size_map.
move=> b; rewrite sz => Hb.
have [mx Hmx ->] := greedy_A_next_nth E Hb.
rewrite (nth_map [::]) //; set row := nth [::] X b in Hmx *.
apply: (@eq_from_nth _ 0); first by rewrite size_map size_mkseq.
move=> a; rewrite size_map => Ha.
rewrite (nth_map 0) // nth_mkseq // (mem_argmax Hmx Ha) (size_argmax Hmx).
by case: (nth 0 row a == mx); rewrite ?mul1r ?mul0r.
Qed.

End ArrayTheory.

(** ** Special floating-point values *)

Lemma fp_eqbP (T : eqType) : Equality.axiom (@fp_eqb T).
Proof.
move=> [a| | |] [b| | |] /=; try by constructor.
by apply: (iffP eqP) => [->|[]].
Qed.

HB.instance Definition _ (T : eqType) := hasDecEq.Build (fp T) (@fp_eqbP T).

Section SpecialValuesTheory.

Variable R : realFieldType.
Implicit Types (s t : seq (fp R)).

Lemma fp_add0 (x : fp R) : fp_add x (Fin 0) = x.
Proof. by case: x => [a| | |] //=; rewrite addr0. Qed.

Lemma fp_mul0_finite (x : fp R) : finite x -> fp_mul (Fin 0) x = Fin 0.
Proof. by case: x => [a| | |] //= _; rewrite mul0r. Qed.

Lemma fp_broadcast_same (op : fp R -> fp R -> fp R) s t :
  size s = size t -> fp_broadcast op s t = Some [seq op a.1 a.2 | a <- zip s t].
Proof. by rewrite /fp_broadcast => ->; rewrite eqxx. Qed.

(** *** The floating-point operations on finite values *)

Lemma zip_map_Fin (op : R -> R -> R) (fop : fp R -> fp R -> fp R) (u v : seq R) :
  (forall a b, fop (Fin a) (Fin b) = Fin (op a b)) ->
  [seq fop a.1 a.2 | a <- zip [seq Fin x | x <- u] [seq Fin x | x <- v]]
  = [seq Fin x | x <- [seq op a.1 a.2 | a <- zip u v]].
Proof. by move=> H; elim: u v => [|a u IH] [|b v] //=; rewrite H IH. Qed.

Lemma fp_broadcast_Fin (op : R -> R -> R) (fop : fp R -> fp R -> fp R)
    (u v : seq R) :
  (forall a b, fop (Fin a) (Fin b) = Fin (op a b)) ->
  fp_broadcast fop [seq Fin x | x <- u] [seq Fin x | x <- v]
  = omap (map Fin) (broadcast op u v).
Proof.
move=> H; rewrite /fp_broadcast /broadcast !size_map.
case: ifP => _ /=; first by rewrite (zip_map_Fin _ _ H).
case: ifP => [|_].
  case: u => [|a [|a' u]] // _ /=; congr Some.
  by rewrite -!map_comp; apply: eq_map => b /=.
case: ifP => // .
case: v => [|b [|b' v]] // _ /=; congr Some.
by rewrite -!map_comp; apply: eq_map => a /=.
Qed.

Lemma foldl_fp_min_Fin (a : R) (u : seq R) :
  foldl (@fp_min R) (Fin a) [seq Fin x | x <- u] = Fin (foldl Num.min a u).
Proof. by elim: u a => [|b u IH] a //=; rewrite IH. Qed.

Lemma fp_amin_Fin (u : seq R) : fp_amin [seq Fin x | x <- u] = omap Fin (amin u).
Proof. by case: u => [|a u] //=; rewrite foldl_fp_min_Fin. Qed.

Lemma fp_min_last_Fin (X : mat R) :
  fp_min_last [seq [seq Fin x | x <- row] | row <- X]
  = omap (map Fin) (min_last X).
Proof.
rewrite /fp_min_last /min_last; elim: X => [|row X IH] //=.
by rewrite fp_amin_Fin; case: (amin row) => [m|] //=; rewrite IH; case: (oseq _).
Qed.

Lemma fp_stack_last_Fin (l : seq (vec R)) :
  fp_stack_last [seq [seq Fin x | x <- w] | w <- l]
  = omap (map (map Fin)) (stack_last l).
Proof.
case: l => [|v l] //=; rewrite size_map all_map.
have -> : all (preim (map Fin) (fun w : seq (fp R) => size w == size v)) l
          = all (fun w => size w == size v) l.
  by apply: eq_all => w /=; rewrite size_map.
case: ifP => // /allP Hall /=; congr Some.
rewrite -[RHS]map_comp; apply/eq_in_map => b; rewrite mem_iota /= add0n => Hb.
rewrite (nth_map 0) //; congr cons.
rewrite -!map_comp; apply/eq_in_map => w Hw /=.
by rewrite (nth_map 0) // (eqP (Hall _ Hw)).
Qed.

(** On finite values, and with value transforms that keep them finite,
    the floating-point lines 263-269 are the exact ones. *)
Lemma target_func_fp_exact (f f_inv : R -> R) (Rn In : vec R) (l : seq (vec R)) :
  target_func_fp (fp_lift f) (fp_lift f_inv) [seq Fin x | x <- Rn]
    [seq Fin x | x <- In] [seq [seq Fin x | x <- w] | w <- l]
  = omap (map Fin) (let* Q_sa_next := stack_min l in
                    bootstrapped f f_inv Rn In Q_sa_next).
Proof.
rewrite /target_func_fp /stack_min /bootstrapped fp_stack_last_Fin.
case: (stack_last l) => [X|] //=; rewrite fp_min_last_Fin.
case: (min_last X) => [Qmin|] //=.
have -> : [seq fp_lift f_inv x | x <- [seq Fin x | x <- Qmin]]
          = [seq Fin x | x <- [seq f_inv x | x <- Qmin]].
  by rewrite -!map_comp.
rewrite (@fp_broadcast_Fin *%R) //.
case: (broadcast _ In _) => [In_Q|] //=.
rewrite (@fp_broadcast_Fin +%R) //.
case: (broadcast _ Rn _) => [G|] //=.
by rewrite -!map_comp.
Qed.

(** C2. A row whose bootstrap discount [In] is zero gets the target
    [f(Rn)] when the inverse value transform of the least target value of
    that row is finite: then [0 * f_inv(Q)] is zero, while zero times an
    infinity or NaN is NaN. *)
Theorem target_func_fp_terminal (f f_inv : fp R -> fp R) (Rn In : seq (fp R))
    (Q_sa_next_list : seq (seq (fp R))) (Q_sa_next G : seq (fp R)) (b : nat) :
  size Rn = size In ->
  fp_stack_min Q_sa_next_list = Some Q_sa_next ->
  size Q_sa_next = size Rn ->
  target_func_fp f f_inv Rn In Q_sa_next_list = Some G ->
  (b < size Rn)%N ->
  nth NaN In b = Fin 0 ->
  finite (f_inv (nth NaN Q_sa_next b)) ->
  nth NaN G b = f (nth NaN Rn b).
Proof.
move=> Hsz; rewrite /fp_stack_min /target_func_fp.
case: (fp_stack_last _) => [X|] //=; move=> -> szQ /=.
have E1 : size In = size [seq f_inv x | x <- Q_sa_next].
  by rewrite size_map szQ.
rewrite (fp_broadcast_same _ E1) /=.
set In_Q := [seq _ | a <- zip In _].
have szI : size In_Q = size Rn by rewrite size_map size_zip -E1 minnn.
rewrite fp_broadcast_same ?szI //= => -[<-] Hb H0 Hfin.
have Hz : (b < size (zip Rn In_Q))%N by rewrite size_zip szI minnn.
rewrite (nth_map NaN) ?size_map // (nth_map (NaN, NaN)) // nth_zip ?szI //=.
rewrite (nth_map (NaN, NaN)) ?size_zip -?E1 ?minnn -?Hsz //.
rewrite nth_zip //= H0 (nth_map NaN) ?szQ //.
by rewrite fp_mul0_finite // fp_add0.
Qed.

End SpecialValuesTheory.

(** ** The PRNG sequence and the loops of [target_func] *)

Section LoopTheory.

Context {R : realFieldType} {F : Framework R}.
Implicit Types (rngs : rngseq) (qs : seq (Q * params * fstate)) (S_next : sbatch).

Local Arguments advance : simpl never.
Local Arguments draw : simpl never.

Lemma advanceS m rngs : advance m.+1 rngs = advance m (next rngs).2.
Proof. by rewrite /advance iterSr. Qed.

Lemma advanceD k m rngs : advance (k + m) rngs = advance m (advance k rngs).
Proof. by rewrite /advance addnC iterD. Qed.

Lemma drawS rngs m : draw rngs m.+1 = draw (next rngs).2 m.
Proof. by rewrite /draw advanceS. Qed.

Lemma draw_advance k m rngs : draw (advance k rngs) m = draw rngs (k + m).
Proof. by rewrite /draw advanceD. Qed.

Lemma onthS (T : Type) (x : T) (s : seq T) i : onth (x :: s) i.+1 = onth s i.
Proof. by []. Qed.

Lemma onth_size (T : Type) (s : seq T) i x : onth s i = Some x -> (i < size s)%N.
Proof. by elim: s i => [|y s IH] [|i] //=; rewrite onthS => /IH. Qed.

Lemma mem_onth (T : eqType) (s : seq T) (e : T) :
  e \in s <-> exists i, onth s i = Some e.
Proof.
elim: s => [|x s IH]; first by split=> // -[[|i]].
rewrite inE; split.
  case/orP=> [/eqP ->|/IH [i Hi]]; first by exists 0%N.
  by exists i.+1.
case=> [[|i]]; first by case=> ->; rewrite eqxx.
by rewrite onthS => Hi; apply/orP; right; apply/IH; exists i.
Qed.

Lemma bind_next (T : Type) (k : key -> M T) rngs :
  bind next_rngs k rngs = k (next rngs).1 (next rngs).2.
Proof. by rewrite /bind /next_rngs; case: (next rngs). Qed.

Lemma bind_lift (T U : Type) (o : option T) (k : T -> M U) rngs :
  bind (lift o) k rngs = if o is Some x then k x rngs else None.
Proof. by case: o. Qed.

Lemma for_append_cons (X T : Type) (x : X) (xs : seq X) (body : X -> M (seq T)) rngs :
  for_append (x :: xs) body rngs
  = if body x rngs is Some (l, rngs1) then
      if for_append xs body rngs1 is Some (l', rngs2) then Some (l ++ l', rngs2)
      else None
    else None.
Proof.
by rewrite /= /bind; case: (body x rngs) => [[l rngs1]|].
Qed.

Lemma for_append_ext (X T : Type) (xs : seq X) (body body' : X -> M (seq T)) rngs :
  (forall x rngs, body x rngs = body' x rngs) ->
  for_append xs body rngs = for_append xs body' rngs.
Proof.
move=> E; elim: xs rngs => [|x xs IH] rngs //; rewrite !for_append_cons E.
by case: (body' x rngs) => [[l rngs1]|] //; rewrite IH.
Qed.

(** The inner loop never raises, draws one sub-key per evaluator and
    returns the evaluations in order. *)
Lemma evaluate_onP qs S_next (A_next : mat R) rngs :
  exists2 res,
    evaluate_on qs S_next A_next rngs = Some (res, advance (size qs) rngs)
    & forall e, e \in res <->
        exists j y, onth qs j = Some y /\
          e = (function_type1 y.1.1 y.1.2 y.2 (draw rngs j) S_next A_next false).1.
Proof.
rewrite /evaluate_on; elim: qs rngs => [|[[q_j p_j] s_j] qs IH] rngs.
  by exists [::] => // e; split=> // -[j] [y] [].
have [res E H] := IH (next rngs).2.
exists ((function_type1 q_j p_j s_j (next rngs).1 S_next A_next false).1 :: res).
  by rewrite for_append_cons bind_next /= /ret E advanceS.
move=> e; rewrite inE; split.
  case/orP=> [/eqP ->|/H [j] [y] [Hj ->]]; first by exists 0%N, (q_j, p_j, s_j).
  by exists j.+1, y; rewrite onthS drawS.
case=> [[|j]] [y] []; first by case=> <- ->; rewrite eqxx.
rewrite onthS drawS => Hj ->; apply/orP; right; apply/H.
by exists j, y.
Qed.

(** Both branches: a selector and its evaluations use [(size qs).+1]
    consecutive sub-keys; the loop raises as soon as a selector does. *)
Lemma select_evaluateP (X : Type) (choose : X -> key -> option (mat R))
    (sels : seq X) qs S_next rngs :
  match select_evaluate choose sels qs S_next rngs with
  | Some (res, rngs') =>
      [/\ rngs' = advance (size sels * (size qs).+1) rngs,
          forall i x, onth sels i = Some x ->
            exists A_i, choose x (draw rngs (i * (size qs).+1)) = Some A_i
        & forall e, e \in res <->
            exists i j x y A_i,
              [/\ onth sels i = Some x,
                  choose x (draw rngs (i * (size qs).+1)) = Some A_i,
                  onth qs j = Some y
                & e = (function_type1 y.1.1 y.1.2 y.2
                         (draw rngs (i * (size qs).+1 + j.+1)) S_next A_i false).1]]
  | None =>
      exists i x, onth sels i = Some x /\
        choose x (draw rngs (i * (size qs).+1)) = None
  end.
Proof.
rewrite /select_evaluate; elim: sels rngs => [|x sels IH] rngs.
  rewrite /= /ret; split=> // e; split=> //.
  by case=> i [j] [x] [y] [A_i] [].
rewrite for_append_cons bind_next bind_lift.
case Ec: (choose x (next rngs).1) => [A_x|]; last by exists 0%N, x.
have [row -> Hrow] := evaluate_onP qs S_next A_x (next rngs).2.
rewrite -advanceS.
have Hd k : draw (advance (size qs).+1 rngs) k = draw rngs ((size qs).+1 + k).
  exact: draw_advance.
case: (for_append _ _ _) (IH (advance (size qs).+1 rngs)) => [[res rngs']|]; last first.
  case=> i [y] [Hi Hc]; exists i.+1, y; split=> //.
  by rewrite mulSn -Hd.
case=> -> Hsel Hres; split.
- by rewrite mulSn advanceD.
- case=> [|i] y; first by case=> <-; exists A_x.
  by rewrite onthS mulSn -Hd; apply: Hsel.
move=> e; rewrite mem_cat; split.
  case/orP=> [/Hrow [j] [y] [Hj ->]|/Hres [i] [j] [x'] [y] [A_i] [Hi Hc Hj ->]].
    exists 0%N, j, x, y, A_x; split=> //.
    by rewrite mul0n add0n drawS.
  exists i.+1, j, x', y, A_i; split=> //; first by rewrite mulSn -Hd.
  by rewrite Hd mulSn addnA.
case=> [[|i]] [j] [x'] [y] [A_i] [].
  case=> <-; rewrite mul0n add0n Ec => -[<-] Hj ->.
  by apply/orP; left; apply/Hrow; exists j, y; rewrite drawS.
rewrite onthS mulSn -addnA -!Hd => Hi Hc Hj ->.
by apply/orP; right; apply/Hres; exists i, j, x', y, A_i.
Qed.

End LoopTheory.

(** ** The TD-target *)

Section TargetTheory.

Context {R : realFieldType} {F : Framework R}.
Implicit Types (self : ClippedDoubleQLearning) (rngs : rngseq).
Implicit Types (target_params : bundle params) (target_state : bundle fstate).
Implicit Types (S_next : sbatch) (transition_batch : TransitionBatch.t).

Local Arguments advance : simpl never.
Local Arguments draw : simpl never.

Lemma discrete_Q_sa_next_listE (qs : seq (Q * params * fstate)) S_next rngs :
  discrete_Q_sa_next_list qs S_next rngs
  = select_evaluate (choose_discrete S_next) qs qs S_next rngs.
Proof. by apply: for_append_ext => -[[q_i p_i] s_i] rngs1. Qed.

Lemma continuous_Q_sa_next_listE (pis : seq (Policy * params * fstate))
    (qs : seq (Q * params * fstate)) S_next rngs :
  continuous_Q_sa_next_list pis qs S_next rngs
  = select_evaluate (choose_continuous S_next) pis qs S_next rngs.
Proof.
apply: for_append_ext => -[[pi_i p_i] s_i] rngs1.
by rewrite /bind /next_rngs; case: (next rngs1).
Qed.

(** The list the loops collect holds exactly the evaluations of the
    ordered pairs (selector, evaluator). *)
Lemma mem_Q_sa_next_list self target_params target_state S_next rngs res rngs' :
  Q_sa_next_list_of self target_params target_state S_next rngs = Some (res, rngs') ->
  forall e, e \in res <->
    exists i j,
      pair_evaluation self target_params target_state rngs S_next i j = Some e.
Proof.
rewrite /Q_sa_next_list_of /pair_evaluation /selector_A_next /targets.
set qs := zip3 _ _ _.
case: (isinstance_Discrete _).
  rewrite discrete_Q_sa_next_listE.
  have := select_evaluateP (choose_discrete S_next) qs qs S_next rngs.
  case: (select_evaluate _ _ _ _ _) => [[res0 rngs0]|] // [_ _ H] [<- _] e.
  split.
    case/H=> i [j] [x] [y] [A_i] [Hi Hc Hj ->]; exists i, j.
    case: x Hi Hc => [[q_i p_i] s_i] Hi; rewrite /choose_discrete /= => Hc.
    by rewrite Hi /= Hc /= Hj; case: y Hj => [[? ?] ?].
  case=> i [j]; case Hi: (onth qs i) => [[[q_i p_i] s_i]|] //=.
  case Hc: (greedy_A_next _) => [A_i|] //=.
  case Hj: (onth qs j) => [[[q_j p_j] s_j]|] //= [<-].
  by apply/H; exists i, j, (q_i, p_i, s_i), (q_j, p_j, s_j), A_i.
rewrite bind_lift; case: (policies_of _) => [pi_list|] //=.
set pis := zip3 _ _ _.
rewrite continuous_Q_sa_next_listE.
have := select_evaluateP (choose_continuous S_next) pis qs S_next rngs.
case: (select_evaluate _ _ _ _ _) => [[res0 rngs0]|] // [_ _ H] [<- _] e.
split.
  case/H=> i [j] [x] [y] [A_i] [Hi [<-] Hj ->]; exists i, j.
  case: x Hi => [[pi_i p_i] s_i] Hi /=.
  by rewrite Hi /= Hj; case: y Hj => [[? ?] ?].
case=> i [j]; case Hi: (onth pis i) => [[[pi_i p_i] s_i]|] //=.
case Hj: (onth qs j) => [[[q_j p_j] s_j]|] //= [<-].
by apply/H; exists i, j, (pi_i, p_i, s_i), (q_j, p_j, s_j), (proba_dist_mode pi_i (function pi_i p_i s_i (draw rngs (i * (size qs).+1)) S_next false).1).
Qed.

(** C1. With the identity value transform, and every pair evaluation
    giving one value per row of the batch, a target that [target_func]
    returns has one entry per row, and its entry for row [b] is
    [Rn[b] + In[b] * m] where [m] is the minimum, over all ordered pairs
    (selector [i], evaluator [j]), of the value at row [b] of evaluator
    [j] at [S_next] and the next action chosen by selector [i]. *)
Theorem target_func_identity_transform self target_params target_state
    (rng : key) transition_batch (G : vec R) :
  let Rn := TransitionBatch.Rn transition_batch in
  let In := TransitionBatch.In transition_batch in
  let S_next := TransitionBatch.S_next transition_batch in
  let pair := pair_evaluation self target_params target_state
                (PRNGSequence rng) S_next in
  value_transform self = (id, id) ->
  size Rn = size In ->
  (forall i j e, pair i j = Some e -> size e = size Rn) ->
  target_func self target_params target_state rng transition_batch = Some G ->
  size G = size Rn /\
  forall b, (b < size Rn)%N ->
    exists2 m : R,
      nth 0 G b = nth 0 Rn b + nth 0 In b * m
      & (exists i j e, pair i j = Some e /\ m = nth 0 e b)
        /\ (forall i j e, pair i j = Some e -> m <= nth 0 e b).
Proof.
move=> Rn In S_next pair Hvt Hsz Hrow; rewrite /target_func.
case E: (Q_sa_next_list_of _ _ _ _ _) => [[res rngs']|] //=.
have Hmem := mem_Q_sa_next_list E.
case Es: (stack_last res) => [X|] //=; case Em: (min_last X) => [Qmin|] //=.
rewrite Hvt /bootstrapped.
have [Hne Hsize Hleast] := stack_min_least Es Em.
have szQ : size Qmin = size Rn.
  case: res Hne Hmem Hsize {E Es Hleast} => [|w res] // _ Hmem Hsize.
  have Hw : w \in w :: res by rewrite mem_head.
  by rewrite -(Hsize _ Hw); have /Hmem [i [j]] := Hw; apply: Hrow.
rewrite map_id broadcast_same -/In -/Rn ?szQ //=.
rewrite broadcast_same ?size_map ?size_zip ?szQ -?Hsz ?minnn //= map_id => -[<-].
have szR : size [seq a.1 * a.2 | a <- zip In Qmin] = size Rn.
  by rewrite size_map size_zip szQ -Hsz minnn.
split; first by rewrite size_map size_zip szR minnn.
move=> b Hb; exists (nth 0 Qmin b).
  rewrite (nth_map (0, 0)) ?size_zip ?szR ?minnn // nth_zip ?szR //=.
  by rewrite (nth_map (0, 0)) ?size_zip ?szQ -?Hsz ?minnn // nth_zip ?szQ.
have Hb' : (b < size Qmin)%N by rewrite szQ.
have [Hin Hle] := Hleast b Hb'.
split.
  have /mapP [e He ->] := Hin.
  by have /Hmem [i [j Hij]] := He; exists i, j, e.
move=> i j e Hij; apply: Hle; apply/mapP; exists e => //.
by apply/Hmem; exists i, j.
Qed.

(** In the exact model every value is finite: there, a row whose bootstrap
    discount [In] is zero gets the target [f(Rn)] whatever the target
    Q-functions and policies are.  The statement for floating-point
    values is in the section on the special values. *)
Lemma target_func_terminal self target_params target_state (rng : key)
    transition_batch (G : vec R) (b : nat) :
  let Rn := TransitionBatch.Rn transition_batch in
  let In := TransitionBatch.In transition_batch in
  size Rn = size In ->
  target_func self target_params target_state rng transition_batch = Some G ->
  (b < size In)%N -> (b < size G)%N ->
  nth 0 In b = 0 ->
  nth 0 G b = (value_transform self).1 (nth 0 Rn b).
Proof.
move=> Rn In Hsz; rewrite /target_func.
case E: (Q_sa_next_list_of _ _ _ _ _) => [[res rngs']|] //=.
case Es: (stack_last res) => [X|] //=; case Em: (min_last X) => [Qmin|] //=.
case: (value_transform self) => f f_inv /=.
rewrite /bootstrapped -/In -/Rn.
case Eb: (broadcast _ In _) => [In_Q|] //=.
case Ea: (broadcast _ Rn In_Q) => [G'|] //= [<-] Hb; rewrite size_map => HbG H0.
rewrite (nth_map 0) // (broadcast_nth Ea) //.
have szG := broadcast_size Ea; have szI := broadcast_size Eb.
have -> : (if size Rn == 1%N then 0%N else b) = b.
  by case: ifP => // /eqP E1; move: Hb; rewrite -Hsz E1; case: b {HbG H0}.
set k := if size In_Q == 1%N then _ else _.
have Hk : (k < size In_Q)%N.
  rewrite /k; case: ifP => [/eqP -> //|_].
  move: HbG; rewrite szG; case: ifP => // NE1 _.
  by rewrite szI -Hsz NE1 Hsz.
rewrite (broadcast_nth Eb) //.
have -> : (if size In == 1%N then 0%N else k) = b.
  case: ifP => [/eqP E1|NE1]; first by move: Hb; rewrite E1; case: (b).
  by rewrite /k szI NE1 NE1.
by rewrite H0 mul0r addr0.
Qed.


Lemma target_funcE self target_params target_state (rng : key) transition_batch :
  target_func self target_params target_state rng transition_batch
  = let* r := Q_sa_next_list_of self target_params target_state
                (TransitionBatch.S_next transition_batch) (PRNGSequence rng) in
    let* Q_sa_next := stack_min r.1 in
    bootstrapped (value_transform self).1 (value_transform self).2
      (TransitionBatch.Rn transition_batch) (TransitionBatch.In transition_batch)
      Q_sa_next.
Proof.
rewrite /target_func /stack_min.
case: (Q_sa_next_list_of _ _ _ _ _) => [[res rngs']|] //=.
case: (stack_last res) => [X|] //=; case: (min_last X) => [Qmin|] //=.
by case: (value_transform self).
Qed.

(** On finite values [target_func] is the loops followed by the
    floating-point lines 263-269. *)
Lemma target_func_fp_refines self target_params target_state (rng : key)
    transition_batch :
  omap (map Fin)
    (target_func self target_params target_state rng transition_batch)
  = let* r := Q_sa_next_list_of self target_params target_state
                (TransitionBatch.S_next transition_batch) (PRNGSequence rng) in
    target_func_fp (fp_lift (value_transform self).1)
      (fp_lift (value_transform self).2)
      [seq Fin x | x <- TransitionBatch.Rn transition_batch]
      [seq Fin x | x <- TransitionBatch.In transition_batch]
      [seq [seq Fin x | x <- w] | w <- r.1].
Proof.
rewrite target_funcE.
case: (Q_sa_next_list_of _ _ _ _ _) => [[res rngs']|] //=.
by rewrite target_func_fp_exact.
Qed.

(** The loops return when every selector chooses an action. *)
Lemma Q_sa_next_list_of_returns self target_params target_state S_next rngs n :
  selector_count self target_params target_state = Some n ->
  (forall i, (i < n)%N ->
     selector_A_next self target_params target_state rngs S_next i <> None) ->
  exists res rngs',
    Q_sa_next_list_of self target_params target_state S_next rngs
    = Some (res, rngs').
Proof.
rewrite /selector_count /Q_sa_next_list_of /selector_A_next /targets.
set qs := zip3 _ _ _.
case: (isinstance_Discrete _).
  case=> <- H; rewrite discrete_Q_sa_next_listE.
  have := select_evaluateP (choose_discrete S_next) qs qs S_next rngs.
  case: (select_evaluate _ _ _ _ _) => [[res r]|]; first by exists res, r.
  case=> i [[[q_i p_i] s_i]] [Hi Hc]; case: (H i (onth_size Hi)).
  by rewrite Hi.
rewrite bind_lift; case: (policies_of _) => [pi_list|] //= [<-] H.
rewrite continuous_Q_sa_next_listE.
set pis := zip3 _ _ _.
have := select_evaluateP (choose_continuous S_next) pis qs S_next rngs.
case: (select_evaluate _ _ _ _ _) => [[res r]|]; first by exists res, r.
by case=> i [x] [_].
Qed.

(** X17. [target_func] returns a target when the batch is aligned, every
    selector chooses an action, there is at least one pair to evaluate and
    every pair evaluation has one value per row. *)
Lemma target_func_returns self target_params target_state (rng : key)
    transition_batch (n : nat) :
  let Rn := TransitionBatch.Rn transition_batch in
  let In := TransitionBatch.In transition_batch in
  let S_next := TransitionBatch.S_next transition_batch in
  let rngs := PRNGSequence rng in
  let pair := pair_evaluation self target_params target_state rngs S_next in
  size Rn = size In ->
  selector_count self target_params target_state = Some n ->
  (forall i, (i < n)%N ->
     selector_A_next self target_params target_state rngs S_next i <> None) ->
  (exists i j e, pair i j = Some e) ->
  (forall i j e, pair i j = Some e -> size e = size Rn) ->
  exists G, target_func self target_params target_state rng transition_batch
            = Some G.
Proof.
move=> Rn In S_next rngs pair Hsz Hn Hsel [i [j [e He]]] Hrow.
have [res [rngs' E]] := Q_sa_next_list_of_returns Hn Hsel.
have Hmem := mem_Q_sa_next_list E.
rewrite target_funcE -/S_next -/rngs E /=.
have Hres : e \in res by apply/Hmem; exists i, j.
have Hsize w : w \in res -> size w = size Rn.
  by move=> /Hmem [i' [j' Hw]]; apply: Hrow Hw.
have [X Es] : exists X, stack_last res = Some X.
  case: res Hres Hsize {E Hmem} => [|v l] // _ Hsize /=.
  have -> : all (fun w : seq R => size w == size v) l; last by eexists.
  by apply/allP => w Hw; rewrite !Hsize ?eqxx ?mem_head // inE Hw orbT.
have [Qmin Em] := stack_min_some Es.
have [_ Hs _] := stack_min_least Es Em.
have szQ : size Qmin = size Rn by rewrite -(Hs _ Hres) Hsize.
rewrite /stack_min Es /= Em /= /bootstrapped -/In -/Rn.
set Y := [seq _ x | x <- Qmin].
have E1 : size In = size Y by rewrite size_map szQ.
rewrite (broadcast_same _ E1) /=.
have E2 : size Rn = size [seq a.1 * a.2 | a <- zip In Y].
  by rewrite size_map size_zip -E1 minnn.
by rewrite (broadcast_same _ E2) /=; eexists.
Qed.

(** When every selector chooses the same next action and every evaluator
    returns the same values there, the minimum is that common array. *)
Lemma select_evaluate_const (X : Type) (choose : X -> key -> option (mat R))
    (sels : seq X) (qs : seq (Q * params * fstate)) S_next rngs
    (A0 : mat R) (v : vec R) :
  sels <> [::] -> qs <> [::] ->
  (forall i x, onth sels i = Some x -> forall k, choose x k = Some A0) ->
  (forall j y, onth qs j = Some y ->
     forall k, (function_type1 y.1.1 y.1.2 y.2 k S_next A0 false).1 = v) ->
  exists res rngs',
    select_evaluate choose sels qs S_next rngs = Some (res, rngs')
    /\ stack_min res = Some v.
Proof.
move=> Hs Hq Hc Hv.
have := select_evaluateP choose sels qs S_next rngs.
case: (select_evaluate _ _ _ _ _) => [[res rngs']|]; last first.
  by case=> i [x] [/Hc ->].
case=> _ _ H; exists res, rngs'; split=> //; apply: stack_min_const.
  case: sels qs Hs Hq Hc Hv H => [|x sels] [|y qs] // _ _ Hc _ H.
  have : (function_type1 y.1.1 y.1.2 y.2
            (draw rngs (0 * (size (y :: qs)).+1 + 1)) S_next A0 false).1 \in res.
    by apply/H; exists 0%N, 0%N, x, y, A0; split=> //; apply: (Hc 0%N).
  by case: (res).
move=> e /H [i] [j] [x] [y] [A_i] [Hi]; rewrite (Hc _ _ Hi) => -[<-] Hj ->.
exact: Hv Hj _.
Qed.

Lemma onth_pair (T : Type) (x1 x2 x : T) i :
  onth [:: x1; x2] i = Some x -> x = x1 \/ x = x2.
Proof. by case: i => [|[|i]] // [<-]; [left | right]. Qed.

(** With aligned arrays, line 269 computes the specification's formula
    row by row. *)
Lemma bootstrappedE (f f_inv : R -> R) (Rn In Qv : vec R) :
  size Rn = size In -> size Qv = size Rn ->
  bootstrapped f f_inv Rn In Qv
  = Some (single_network_target (f, f_inv) Rn In Qv).
Proof.
move=> Hsz szQ; rewrite /bootstrapped /single_network_target.
have E1 : size In = size [seq f_inv x | x <- Qv] by rewrite size_map szQ.
rewrite (broadcast_same _ E1) /=.
set In_Q := [seq _ | a <- zip In _].
have szI : size In_Q = size Rn by rewrite size_map size_zip -E1 minnn.
rewrite broadcast_same ?szI //=; congr Some.
have szZ : size (zip Rn In_Q) = size Rn by rewrite size_zip szI minnn.
apply: (@eq_from_nth _ 0); first by rewrite !size_map szZ size_iota.
move=> b; rewrite !size_map szZ => Hb.
rewrite nth_mkseq // (nth_map 0) ?size_map ?szZ //.
rewrite (nth_map (0, 0)) ?szZ // nth_zip ?szI //=.
rewrite (nth_map (0, 0)) ?size_zip -?E1 ?minnn -?Hsz // nth_zip //=.
by rewrite (nth_map 0) ?szQ.
Qed.

(** C4. Discrete action space and two target Q-functions that are
    extensionally identical and do not depend on the sub-key they are
    handed, on a batch whose rows have at least one action and one
    state-action value each: [target_func] returns the single-network
    n-step bootstrapped target [f(Rn + In * f_inv(q1(S_next, argmax_a
    q1(S_next, a))))], whichever sub-keys the single network is handed. *)
Theorem target_func_two_identical self target_params target_state (rng : key)
    transition_batch (q1 q2 : Q) (p1 p2 : params) (s1 s2 : fstate)
    (k k' : key) :
  let Rn := TransitionBatch.Rn transition_batch in
  let In := TransitionBatch.In transition_batch in
  let S_next := TransitionBatch.S_next transition_batch in
  let Q_s_next := (function_type2 q1 p1 s1 k S_next false).1 in
  let Q_sa_next :=
    (function_type1 q1 p1 s1 k' S_next (argmax_action Q_s_next) false).1 in
  isinstance_Discrete (action_space (q self)) ->
  q_targ_list self = [:: q1; q2] ->
  bundle_q_targ target_params = [:: p1; p2] ->
  bundle_q_targ target_state = [:: s1; s2] ->
  extensionally_identical (q1, p1, s1) (q2, p2, s2) ->
  seed_independent (q1, p1, s1) ->
  all (fun row => row != [::]) Q_s_next ->
  size Rn = size In -> size Q_sa_next = size Rn ->
  target_func self target_params target_state rng transition_batch
  = Some (single_network_target (value_transform self) Rn In Q_sa_next).
Proof.
move=> Rn In S_next Q_s_next Q_sa_next Hd Hq Hp Hs [/= I1 I2] [/= H1 H2].
move=> Hrows Hsz szQ.
rewrite target_funcE /Q_sa_next_list_of Hd Hq Hp Hs.
rewrite discrete_Q_sa_next_listE.
have -> : zip3 [:: q1; q2] [:: p1; p2] [:: s1; s2]
          = [:: (q1, p1, s1); (q2, p2, s2)] by [].
rewrite -/S_next -/Rn -/In; set qs := [:: _; _].
have Eg := greedy_A_next_argmax Hrows.
have [] := @select_evaluate_const _ (choose_discrete S_next) qs qs S_next
             (PRNGSequence rng) (argmax_action Q_s_next) Q_sa_next.
- by [].
- by [].
- move=> i x /(@onth_pair _ (q1, p1, s1) (q2, p2, s2)) [] -> r;
    rewrite /choose_discrete /=.
    by rewrite (H2 r k S_next).
  by rewrite -(I2 r S_next) (H2 r k S_next).
- move=> j y /(@onth_pair _ (q1, p1, s1) (q2, p2, s2)) [] -> r /=.
    exact: H1.
  by rewrite -(I1 r S_next) (H1 r k' S_next).
move=> res [rngs'] [-> /= ->] /=.
by rewrite bootstrappedE //; case: (value_transform self).
Qed.

End TargetTheory.

(** ** Reordering the target Q-functions *)

Section PermutationTheory.

Context {R : realFieldType} {F : Framework R}.
Implicit Types (self : ClippedDoubleQLearning) (rngs : rngseq).
Implicit Types (qs : seq (Q * params * fstate)) (S_next : sbatch).

Local Arguments advance : simpl never.
Local Arguments draw : simpl never.

Lemma onth_In (T : Type) (s : seq T) (x : T) :
  List.In x s <-> exists i, onth s i = Some x.
Proof.
elim: s => [|y s IH] /=; first by split=> // -[i].
split.
  case=> [->|/IH [i Hi]]; first by exists 0%N.
  by exists i.+1.
case=> [[|i]]; first by case=> ->; left.
by rewrite onthS => Hi; right; apply/IH; exists i.
Qed.

Lemma zip3_unzip (T1 T2 T3 : Type) (s : seq (T1 * T2 * T3)) :
  zip3 [seq x.1.1 | x <- s] [seq x.1.2 | x <- s] [seq x.2 | x <- s] = s.
Proof. by rewrite /zip3; elim: s => [|[[x1 x2] x3] s IH] //=; rewrite IH. Qed.

(** The object and bundles built by [with_targets], [with_q_targ] and
    [with_q_targ_state] have exactly the targets they were given. *)
Lemma targets_with self (target_params : bundle params)
    (target_state : bundle fstate) qs :
  targets (with_targets self qs) (with_q_targ target_params qs)
    (with_q_targ_state target_state qs) = qs.
Proof. exact: zip3_unzip. Qed.

Lemma choose_discrete_indep S_next (x : Q * params * fstate) (k k' : key) :
  seed_independent x -> choose_discrete S_next x k = choose_discrete S_next x k'.
Proof. by case=> _ H2; rewrite /choose_discrete (H2 k k'). Qed.

(** One direction of the comparison of two runs of the loops: every
    selector and every evaluator of the first run also occurs in the second,
    a selector chooses the same action at its two positions, and the
    evaluators do not depend on their sub-key. *)
Lemma select_evaluate_sub (X : Type) (choose : X -> key -> option (mat R))
    (sels sels' : seq X) qs qs' S_next rngs :
  (forall i x, onth sels i = Some x ->
     exists2 i', onth sels' i' = Some x
       & choose x (draw rngs (i * (size qs).+1))
         = choose x (draw rngs (i' * (size qs').+1))) ->
  (forall j y, onth qs j = Some y ->
     (exists j', onth qs' j' = Some y) /\ seed_independent y) ->
  match select_evaluate choose sels qs S_next rngs,
        select_evaluate choose sels' qs' S_next rngs with
  | Some (res, _), Some (res', _) => {subset res <= res'}
  | None, Some _ => False
  | _, _ => True
  end.
Proof.
move=> Hsel Hqs.
have := select_evaluateP choose sels qs S_next rngs.
have := select_evaluateP choose sels' qs' S_next rngs.
case: (select_evaluate _ sels' _ _ _) => [[res' r']|]; last by case: (select_evaluate _ _ _ _ _) => [[]|].
case=> _ Hsome' H'.
case: (select_evaluate _ _ _ _ _) => [[res r]|].
  case=> _ _ H e /H [i] [j] [x] [y] [A_i] [Hi Hc Hj ->].
  have [i' Hi' Ec] := Hsel _ _ Hi; have [[j' Hj'] [Hy _]] := Hqs _ _ Hj.
  by apply/H'; exists i', j', x, y, A_i; split=> //; rewrite -Ec.
case=> i [x] [Hi Hc]; have [i' Hi' Ec] := Hsel _ _ Hi.
by have [A_i] := Hsome' _ _ Hi'; rewrite -Ec Hc.
Qed.

(** C10. Reordering the target Q-functions, together with their
    parameters and function states, does not change what [target_func]
    returns (a target or an exception), provided the values of each of
    them do not depend on the sub-key it is handed. *)
Theorem target_func_permutation_invariant self (target_params : bundle params)
    (target_state : bundle fstate) qs qs' (rng : key)
    (transition_batch : TransitionBatch.t) :
  Permutation.Permutation qs qs' ->
  List.Forall seed_independent qs ->
  target_func (with_targets self qs') (with_q_targ target_params qs')
    (with_q_targ_state target_state qs') rng transition_batch
  = target_func (with_targets self qs) (with_q_targ target_params qs)
      (with_q_targ_state target_state qs) rng transition_batch.
Proof.
move=> Hperm /List.Forall_forall Hind.
have Hsub i x : onth qs i = Some x -> exists i', onth qs' i' = Some x.
  move=> Hi; apply/onth_In; apply: Permutation.Permutation_in Hperm _.
  by apply/onth_In; exists i.
have Hsub' i x : onth qs' i = Some x -> exists i', onth qs i' = Some x.
  move=> Hi; apply/onth_In.
  apply: Permutation.Permutation_in (Permutation.Permutation_sym Hperm) _.
  by apply/onth_In; exists i.
have Hi1 i x : onth qs i = Some x -> seed_independent x.
  by move=> Hi; apply: Hind; apply/onth_In; exists i.
have Hi2 i x : onth qs' i = Some x -> seed_independent x.
  by move=> /Hsub' [i']; apply: Hi1.
have Hsz : size qs' = size qs.
  exact: esym (Permutation.Permutation_length Hperm).
rewrite !target_funcE /Q_sa_next_list_of /=.
rewrite !zip3_unzip.
set S_next := TransitionBatch.S_next _; set rngs := PRNGSequence rng.
suff Hres : match
    (if isinstance_Discrete (action_space (q self)) then
       discrete_Q_sa_next_list qs S_next
     else bind (lift (policies_of (pi_targ_list self))) (fun pi_list =>
       continuous_Q_sa_next_list
         (zip3 pi_list (bundle_pi_targ target_params) (bundle_pi_targ target_state))
         qs S_next)) rngs,
    (if isinstance_Discrete (action_space (q self)) then
       discrete_Q_sa_next_list qs' S_next
     else bind (lift (policies_of (pi_targ_list self))) (fun pi_list =>
       continuous_Q_sa_next_list
         (zip3 pi_list (bundle_pi_targ target_params) (bundle_pi_targ target_state))
         qs' S_next)) rngs with
  | Some (res, _), Some (res', _) => res =i res'
  | None, None => True
  | _, _ => False
  end.
  move: Hres; case: (if _ then _ else _) => [[res r]|]; case: (if _ then _ else _) => [[res' r']|] //=.
  by move=> /stack_min_eq_mem ->.
case: (isinstance_Discrete _).
  rewrite !discrete_Q_sa_next_listE.
  have := @select_evaluate_sub _ (choose_discrete S_next) qs qs' qs qs' S_next rngs.
  have := @select_evaluate_sub _ (choose_discrete S_next) qs' qs qs' qs S_next rngs.
  case: (select_evaluate _ qs _ _ _) => [[res r]|];
    case: (select_evaluate _ qs' _ _ _) => [[res' r']|] //.
  - move=> H1 H2 e; apply/idP/idP.
      apply: H2 => [i x Hi|j y Hj]; last by split; [apply: Hsub Hj | apply: Hi1 Hj].
      have [i' Hi'] := Hsub _ _ Hi; exists i' => //.
      exact: choose_discrete_indep (Hi1 _ _ Hi).
    apply: H1 => [i x Hi|j y Hj]; last by split; [apply: Hsub' Hj | apply: Hi2 Hj].
    have [i' Hi'] := Hsub' _ _ Hi; exists i' => //.
    exact: choose_discrete_indep (Hi2 _ _ Hi).
  - move=> H1 _; apply: H1 => [i x Hi|j y Hj]; last by split; [apply: Hsub' Hj | apply: Hi2 Hj].
    have [i' Hi'] := Hsub' _ _ Hi; exists i' => //.
    exact: choose_discrete_indep (Hi2 _ _ Hi).
  - move=> _ H2; apply: H2 => [i x Hi|j y Hj]; last by split; [apply: Hsub Hj | apply: Hi1 Hj].
    have [i' Hi'] := Hsub _ _ Hi; exists i' => //.
    exact: choose_discrete_indep (Hi1 _ _ Hi).
rewrite !bind_lift; case: (policies_of _) => [pi_list|] //.
set pis := zip3 _ _ _.
rewrite !continuous_Q_sa_next_listE.
have := @select_evaluate_sub _ (choose_continuous S_next) pis pis qs qs' S_next rngs.
have := @select_evaluate_sub _ (choose_continuous S_next) pis pis qs' qs S_next rngs.
case: (select_evaluate _ _ qs _ _) => [[res r]|];
  case: (select_evaluate _ _ qs' _ _) => [[res' r']|] //.
- move=> H1 H2 e; apply/idP/idP.
    apply: H2 => [i x Hi|j y Hj]; last by split; [apply: Hsub Hj | apply: Hi1 Hj].
    by exists i => //; rewrite Hsz.
  apply: H1 => [i x Hi|j y Hj]; last by split; [apply: Hsub' Hj | apply: Hi2 Hj].
  by exists i => //; rewrite Hsz.
- move=> H1 _; apply: H1 => [i x Hi|j y Hj]; last by split; [apply: Hsub' Hj | apply: Hi2 Hj].
  by exists i => //; rewrite Hsz.
- move=> _ H2; apply: H2 => [i x Hi|j y Hj]; last by split; [apply: Hsub Hj | apply: Hi1 Hj].
  by exists i => //; rewrite Hsz.
Qed.

End PermutationTheory.

(** ** The end-to-end scenario *)

Section ScenarioTheory.

Context {R : realFieldType} {F : Framework R}.

Lemma greedy_A_next_scenario :
  greedy_A_next (nseq 4 [:: 1; 2]) = Some (nseq 4 [:: 0; 1 : R]).
Proof.
have E12 : (1 == 2 :> R) = false by rewrite (eqr_nat R 1 2).
have M12 : Num.max 1 2 = 2 :> R by apply/max_idPr; rewrite (ler_nat R 1 2).
rewrite /greedy_A_next /max_axis1 /= M12 /=.
rewrite /div_keepdims /eq_keepdims /= E12 eqxx.
by rewrite addr0 add0r !divr1.
Qed.

(** C9. Four transitions, two discrete actions, two target Q-functions
    whose per-action values are [1, 2] on every row (so that the value of
    the greedy action, index 1, is 2), [Rn = 0], [In = 0.99] and the
    identity value transform: the target is [1.98] on every row. *)
Theorem target_func_scenario (self : ClippedDoubleQLearning)
    (target_params : bundle params) (target_state : bundle fstate) (rng : key)
    (transition_batch : TransitionBatch.t)
    (q1 q2 : Q) (p1 p2 : params) (s1 s2 : fstate) :
  let S_next := TransitionBatch.S_next transition_batch in
  action_space (q self) = Discrete 2 ->
  q_targ_list self = [:: q1; q2] ->
  bundle_q_targ target_params = [:: p1; p2] ->
  bundle_q_targ target_state = [:: s1; s2] ->
  value_transform self = (id, id) ->
  TransitionBatch.Rn transition_batch = nseq 4 0 ->
  TransitionBatch.In transition_batch = nseq 4 (99%:R / 100%:R) ->
  (forall k, (function_type2 q1 p1 s1 k S_next false).1 = nseq 4 [:: 1; 2]) ->
  (forall k, (function_type2 q2 p2 s2 k S_next false).1 = nseq 4 [:: 1; 2]) ->
  (forall k, (function_type1 q1 p1 s1 k S_next (nseq 4 [:: 0; 1]) false).1
             = nseq 4 2) ->
  (forall k, (function_type1 q2 p2 s2 k S_next (nseq 4 [:: 0; 1]) false).1
             = nseq 4 2) ->
  target_func self target_params target_state rng transition_batch
  = Some (nseq 4 (198%:R / 100%:R)).
Proof.
move=> S_next Hsp Hq Hp Hs Hvt HRn HIn H21 H22 H11 H12.
have Hd : isinstance_Discrete (action_space (q self)) by rewrite Hsp.
rewrite target_funcE /Q_sa_next_list_of Hd Hq Hp Hs Hvt HRn HIn.
rewrite discrete_Q_sa_next_listE.
have -> : zip3 [:: q1; q2] [:: p1; p2] [:: s1; s2]
          = [:: (q1, p1, s1); (q2, p2, s2)] by [].
have [] := @select_evaluate_const _ _ _ (choose_discrete S_next)
             [:: (q1, p1, s1); (q2, p2, s2)] [:: (q1, p1, s1); (q2, p2, s2)]
             S_next (PRNGSequence rng) (nseq 4 [:: 0; 1]) (nseq 4 2).
- by [].
- by [].
- move=> i x /(@onth_pair _ (q1, p1, s1) (q2, p2, s2)) [] -> k;
    by rewrite /choose_discrete /= ?H21 ?H22 greedy_A_next_scenario.
- by move=> j y /(@onth_pair _ (q1, p1, s1) (q2, p2, s2)) [] -> k /=.
move=> res [rngs'] [-> /= ->] /=; rewrite /bootstrapped /broadcast /=.
by rewrite add0r mulrAC -natrM.
Qed.

End ScenarioTheory.

(** ** The TD-error *)

Section TDErrorTheory.

Context {R : realFieldType} {F : Framework R}.

Lemma broadcast_sub_opp (s t r : vec R) :
  broadcast (fun a b => a - b) s t = Some r ->
  broadcast (fun a b => a - b) t s = Some [seq - x | x <- r].
Proof.
rewrite /broadcast [size t == size s]eq_sym.
case: (eqVneq (size s) (size t)) => [_|NE].
  case=> <-; congr Some.
  by elim: s t => [|x s IH] [|y t] //=; rewrite IH opprB.
case: (eqVneq (size s) 1%N) => [E1|NE1].
  case=> <-; case: (eqVneq (size t) 1%N) => [E2|_]; first by rewrite E1 E2 in NE.
  by rewrite -map_comp; congr Some; apply: eq_map => b /=; rewrite opprB.
case: (eqVneq (size t) 1%N) => // _ [<-].
by rewrite -map_comp; congr Some; apply: eq_map => b /=; rewrite opprB.
Qed.

(** C5. The TD-error is the negated gradient of the loss in its second
    argument at [(G, Q)], [G] the target of [target_func] (first sub-key)
    and [Q] the online Q-function at [S] and the preprocessed [A] (second
    sub-key).  It is the residual [G - Q] exactly when that gradient is
    [Q - G]. *)
Theorem td_error_func_negative_gradient (self : ClippedDoubleQLearning)
    (params_ : params) (target_params : bundle params)
    (state : fstate) (target_state : bundle fstate) (rng : key)
    (transition_batch : TransitionBatch.t) (G : vec R) :
  let rngs := PRNGSequence rng in
  let Qv := (function_type1 (q self) params_ state (draw rngs 1)
               (TransitionBatch.S transition_batch)
               (action_preprocessor (q self) (TransitionBatch.A transition_batch))
               false).1 in
  let dL_dQ := grad_argnums1 (loss_function self) G Qv in
  let td_error := td_error_func self params_ target_params state target_state
                    rng transition_batch in
  target_func self target_params target_state (draw rngs 0) transition_batch
    = Some G ->
  td_error = Some [seq - d | d <- dL_dQ]
  /\ forall G_Q Q_G : vec R,
       broadcast (fun a b => a - b) G Qv = Some G_Q ->
       broadcast (fun a b => a - b) Qv G = Some Q_G ->
       (td_error = Some G_Q <-> dL_dQ = Q_G).
Proof.
move=> rngs Qv dL_dQ td_error HG.
have E : td_error = Some [seq - d | d <- dL_dQ].
  rewrite /td_error /td_error_func -/rngs.
  have -> : next rngs = (draw rngs 0, (next rngs).2) by rewrite /draw /=; case: (next rngs).
  rewrite HG /=.
  by have -> : next (next rngs).2 = (draw rngs 1, (next (next rngs).2).2)
    by rewrite /draw /=; case: (next _).
split=> // G_Q Q_G HGQ; rewrite (broadcast_sub_opp HGQ) E => -[<-].
split=> [[<-]|->].
  by rewrite -map_comp (@eq_map _ _ _ id) ?map_id // => x /=; rewrite opprK.
by rewrite -map_comp (@eq_map _ _ _ id) ?map_id // => x /=; rewrite opprK.
Qed.

End TDErrorTheory.

(** ** Construction *)

Section ConstructionTheory.

Context {R : realFieldType} {F : Framework R}.
Implicit Types (q : Q) (pi_targ_list q_targ_list : pyval).

Lemma raised_wbind (T U : Type) (m : W T) (n : W U) :
  raised (wbind m (fun _ => n)) = raised m || raised n.
Proof. by case: m => w [e|x] //=; rewrite /raised /=; case: n => w' [e'|y]. Qed.

Lemma raised_when_raise (b : bool) (e : exn) : raised (when_raise b e) = b.
Proof. by case: b. Qed.

Lemma raised_for_raise (T : Type) (l : seq T) (c : T -> bool) (e : exn) :
  raised (for_raise l c e) = has c l.
Proof.
by elim: l => [|x l IH] //=; rewrite raised_wbind raised_when_raise IH.
Qed.

Lemma raised_check_q_targ_list q_targ_list :
  raised (check_q_targ_list q_targ_list)
  = ~~ [&& isinstance_tuple_list q_targ_list, (0 < len q_targ_list)%N
         & all isinstance_Q (items q_targ_list)].
Proof.
rewrite /check_q_targ_list !raised_wbind !raised_when_raise raised_for_raise.
by rewrite has_predC !negb_and /len lt0n negbK /nilp.
Qed.

Lemma raised_check_pi_targ_list q pi_targ_list :
  raised (check_pi_targ_list q pi_targ_list)
  = ~~ (isinstance_Discrete (action_space q)
        || [&& isinstance_tuple_list pi_targ_list, (0 < len pi_targ_list)%N
             & all isinstance_Policy (items pi_targ_list)]).
Proof.
rewrite /check_pi_targ_list; case: (isinstance_Discrete _) => /=.
  by case: pi_targ_list.
rewrite !raised_wbind !raised_when_raise raised_for_raise.
rewrite has_predC !negb_and /len ltnS leqn0 lt0n negbK.
by case: pi_targ_list.
Qed.

Lemma raised_check_input_lists q pi_targ_list q_targ_list :
  raised (_check_input_lists q pi_targ_list q_targ_list)
  = ~~ [&& isinstance_Discrete (action_space q)
           || [&& isinstance_tuple_list pi_targ_list, (0 < len pi_targ_list)%N
                & all isinstance_Policy (items pi_targ_list)],
           isinstance_tuple_list q_targ_list, (0 < len q_targ_list)%N
         & all isinstance_Q (items q_targ_list)].
Proof.
rewrite /_check_input_lists raised_wbind raised_check_pi_targ_list.
by rewrite raised_check_q_targ_list -negb_and.
Qed.

Lemma raised_init q pi_targ_list q_targ_list
    (L : vec R -> vec R -> R) (vt : (R -> R) * (R -> R)) :
  raised (init q pi_targ_list q_targ_list L vt)
  = raised (_check_input_lists q pi_targ_list q_targ_list)
    || (if isinstance_Discrete (action_space q) then (len q_targ_list < 2)%N
        else (len q_targ_list * len pi_targ_list < 2)%N).
Proof.
rewrite /init !raised_wbind orbF; congr orb.
case: (isinstance_Discrete _); rewrite raised_when_raise //.
by case: pi_targ_list.
Qed.

(** C6. With a discrete action space the construction raises whenever
    [q_targ_list] has fewer than two entries; it succeeds exactly when
    [q_targ_list] is a list or tuple of at least two Q-functions. *)
Theorem init_discrete_q_targ_list q pi_targ_list q_targ_list
    (L : vec R -> vec R -> R) (vt : (R -> R) * (R -> R)) :
  isinstance_Discrete (action_space q) ->
  ((len q_targ_list < 2)%N -> raised (init q pi_targ_list q_targ_list L vt))
  /\ raised (init q pi_targ_list q_targ_list L vt)
     = ~~ [&& isinstance_tuple_list q_targ_list,
              all isinstance_Q (items q_targ_list)
            & (2 <= len q_targ_list)%N].
Proof.
move=> Hd; rewrite raised_init raised_check_input_lists Hd /=.
split=> [->|]; first by rewrite orbT.
by case: (isinstance_tuple_list _); case: (all _ _);
  case: (len q_targ_list) => [|[|n]].
Qed.

(** C7. With an action space that is not discrete the construction
    raises whenever [pi_targ_list] is omitted, is not a list or tuple, is
    empty or holds an element that is not a policy, and whenever
    [len(q_targ_list) * len(pi_targ_list) < 2]; it succeeds exactly when
    none of these holds and [q_targ_list] is a non-empty list or tuple of
    Q-functions. *)
Theorem init_continuous_pi_targ_list q pi_targ_list q_targ_list
    (L : vec R -> vec R -> R) (vt : (R -> R) * (R -> R)) :
  ~~ isinstance_Discrete (action_space q) ->
  raised (init q pi_targ_list q_targ_list L vt)
  = [|| (if pi_targ_list is PyNone then true else false),
        ~~ isinstance_tuple_list pi_targ_list,
        len pi_targ_list == 0%N,
        ~~ all isinstance_Policy (items pi_targ_list),
        (len q_targ_list * len pi_targ_list < 2)%N
      | ~~ [&& isinstance_tuple_list q_targ_list, (0 < len q_targ_list)%N
             & all isinstance_Q (items q_targ_list)]].
Proof.
move=> /negbTE Hd; rewrite raised_init raised_check_input_lists Hd /=.
have Hab : (if pi_targ_list is PyNone then true else false) ->
           ~~ isinstance_tuple_list pi_targ_list by case: pi_targ_list.
rewrite !lt0n.
set a := (if pi_targ_list is PyNone then true else false) in Hab *.
set b := isinstance_tuple_list pi_targ_list in Hab *.
set c := (len pi_targ_list == 0%N).
set d := all isinstance_Policy (items pi_targ_list).
set e := (_ < 2)%N.
set qc := [&& isinstance_tuple_list q_targ_list, _ & _].
by case: a Hab => [/(_ isT) /negbTE ->|_]; case: b; case: c; case: d; case: e;
  case: qc.
Qed.

Lemma for_raise_ok (T : Type) (l : seq T) (c : T -> bool) (e : exn) :
  ~~ has c l -> for_raise l c e = wret tt.
Proof.
by elim: l => [|x l IH] //=; rewrite negb_or => /andP [/negbTE -> /IH ->].
Qed.

Lemma check_q_targ_list_ok q_targ_list :
  ~~ raised (check_q_targ_list q_targ_list) ->
  check_q_targ_list q_targ_list = wret tt.
Proof.
rewrite raised_check_q_targ_list negbK /len lt0n => /and3P [H1 H2 H3].
rewrite /check_q_targ_list H1 /nilp (negbTE H2) /= for_raise_ok //.
by rewrite has_predC negbK.
Qed.

(** The discrete branch of [target_func] reads neither the policy list of
    the object nor the policy entries of the two bundles. *)
Lemma target_func_discrete_pi_targ (self self' : ClippedDoubleQLearning)
    (target_params target_params' : bundle params)
    (target_state target_state' : bundle fstate) (rng : key)
    (transition_batch : TransitionBatch.t) :
  isinstance_Discrete (action_space (q self)) ->
  q self' = q self ->
  q_targ_list self' = q_targ_list self ->
  value_transform self' = value_transform self ->
  bundle_q_targ target_params' = bundle_q_targ target_params ->
  bundle_q_targ target_state' = bundle_q_targ target_state ->
  target_func self' target_params' target_state' rng transition_batch
  = target_func self target_params target_state rng transition_batch.
Proof.
move=> Hd Eq El Ev Ep Es.
by rewrite /target_func /Q_sa_next_list_of Eq El Ev Ep Es Hd.
Qed.

(** C8. With a discrete action space, supplying [pi_targ_list] does not
    raise: the construction emits one warning and returns an object whose
    [target_func] agrees everywhere with that of the object built without
    the list, whatever the policy entries of the bundles are. *)
Theorem init_discrete_pi_targ_list_ignored q pi_targ_list q_targ_list
    (L : vec R -> vec R -> R) (vt : (R -> R) * (R -> R)) :
  isinstance_Discrete (action_space q) ->
  pi_targ_list <> PyNone ->
  ~~ raised (init q PyNone q_targ_list L vt) ->
  exists self self0 : ClippedDoubleQLearning,
    [/\ init q pi_targ_list q_targ_list L vt
        = ([:: "pi_targ_list is ignored, because action space is discrete"%string],
           inr self),
        init q PyNone q_targ_list L vt = ([::], inr self0)
      & forall (target_params target_params' : bundle params)
               (target_state target_state' : bundle fstate) (rng : key)
               (transition_batch : TransitionBatch.t),
          bundle_q_targ target_params' = bundle_q_targ target_params ->
          bundle_q_targ target_state' = bundle_q_targ target_state ->
          target_func self target_params' target_state' rng transition_batch
          = target_func self0 target_params target_state rng transition_batch].
Proof.
move=> Hd Hpi; rewrite raised_init /_check_input_lists raised_wbind Hd.
rewrite !negb_or => /andP [/andP [_ Hq] Hl].
exists (MkTD q (Qs_of q_targ_list) pi_targ_list L vt),
       (MkTD q (Qs_of q_targ_list) (PyList [::]) L vt); split.
- rewrite /init /_check_input_lists /check_pi_targ_list Hd.
  rewrite (check_q_targ_list_ok Hq) (negbTE Hl).
  by case: pi_targ_list Hpi.
- rewrite /init /_check_input_lists /check_pi_targ_list Hd.
  by rewrite (check_q_targ_list_ok Hq) (negbTE Hl).
- by move=> tp tp' ts ts' rng tb Ep Es; apply: target_func_discrete_pi_targ.
Qed.

End ConstructionTheory.

(** ** More on the construction *)

Section ConstructionOutcome.

Context {R : realFieldType} {F : Framework R}.
Implicit Types (q : Q) (pi_targ_list q_targ_list : pyval).
Implicit Types (L : vec R -> vec R -> R) (vt : (R -> R) * (R -> R)).

Lemma wbind_wret (T U : Type) (x : T) (k : T -> W U) : wbind (wret x) k = k x.
Proof. by rewrite /wbind /=; case: (k x). Qed.

Lemma W_eta (T : Type) (m : W T) : (let: (w', r) := m in (w', r)) = m.
Proof. by case: m. Qed.

Lemma wbind_raise (T U : Type) (e : exn) (k : T -> W U) :
  wbind (raise T e) k = raise U e.
Proof. by []. Qed.

Lemma wbind_warn (U : Type) (msg : string) (k : unit -> W U) :
  wbind (warn msg) k = (msg :: (k tt).1, (k tt).2).
Proof. by rewrite /wbind /=; case: (k tt). Qed.

Lemma for_raiseE (T : Type) (l : seq T) (c : T -> bool) (e : exn) :
  for_raise l c e = if has c l then raise unit e else wret tt.
Proof.
elim: l => [|x l IH] //=; rewrite /when_raise.
by case: (c x); rewrite ?wbind_raise ?wbind_wret.
Qed.

(** The outcome of the checks on [q_targ_list], as a decision table. *)
Lemma check_q_targ_listE q_targ_list :
  check_q_targ_list q_targ_list
  = if ~~ isinstance_tuple_list q_targ_list
    then raise unit (TypeError "q_targ_list must be a list or a tuple")
    else if nilp (items q_targ_list)
    then raise unit (ValueError "q_targ_list cannot be empty")
    else if ~~ all isinstance_Q (items q_targ_list)
    then raise unit (TypeError "all q_targ in q_targ_list must be a coax.Q")
    else wret tt.
Proof.
rewrite /check_q_targ_list /when_raise.
case: (isinstance_tuple_list _); rewrite ?wbind_raise ?wbind_wret //=.
case: (nilp _); rewrite ?wbind_raise ?wbind_wret //=.
by rewrite for_raiseE has_predC.
Qed.

(** The outcome of the checks on [pi_targ_list], as a decision table. *)
Lemma check_pi_targ_listE q pi_targ_list :
  check_pi_targ_list q pi_targ_list
  = if isinstance_Discrete (action_space q) then
      if pi_targ_list is PyNone then wret tt
      else warn "pi_targ_list is ignored, because action space is discrete"
    else if pi_targ_list is PyNone
    then raise unit
           (TypeError "pi_targ_list must be provided if action space is not discrete")
    else if ~~ isinstance_tuple_list pi_targ_list
    then raise unit (TypeError "pi_targ_list must be a list or a tuple")
    else if nilp (items pi_targ_list)
    then raise unit (ValueError "pi_targ_list cannot be empty")
    else if ~~ all isinstance_Policy (items pi_targ_list)
    then raise unit
           (TypeError "all pi_targ in pi_targ_list must be a coax.Policy")
    else wret tt.
Proof.
rewrite /check_pi_targ_list /when_raise; case: (isinstance_Discrete _) => //.
case: pi_targ_list => [|l|l|] //=; rewrite !W_eta /len /= ltnS leqn0 /nilp;
  by case: (size l == 0%N); rewrite ?wbind_raise ?wbind_wret // for_raiseE has_predC.
Qed.

(** The outcome of the construction, discrete action space. *)
Lemma init_discreteE q pi_targ_list q_targ_list L vt :
  isinstance_Discrete (action_space q) ->
  init q pi_targ_list q_targ_list L vt
  = (if pi_targ_list is PyNone then [::]
     else [:: "pi_targ_list is ignored, because action space is discrete"%string],
     if ~~ isinstance_tuple_list q_targ_list
     then inl (TypeError "q_targ_list must be a list or a tuple")
     else if nilp (items q_targ_list)
     then inl (ValueError "q_targ_list cannot be empty")
     else if ~~ all isinstance_Q (items q_targ_list)
     then inl (TypeError "all q_targ in q_targ_list must be a coax.Q")
     else if (len q_targ_list < 2)%N
     then inl (ValueError "len(q_targ_list) must be at least 2")
     else inr (MkTD q (Qs_of q_targ_list)
                 (if pi_targ_list is PyNone then PyList [::] else pi_targ_list)
                 L vt)).
Proof.
move=> Hd; rewrite /init /_check_input_lists check_pi_targ_listE.
rewrite check_q_targ_listE Hd /when_raise.
by case: pi_targ_list => [|l|l|]; case: (isinstance_tuple_list q_targ_list);
  case: (nilp (items q_targ_list)); case: (all isinstance_Q (items q_targ_list));
  case: (len q_targ_list < 2)%N.
Qed.

(** The outcome of the construction, any other action space. *)
Lemma init_continuousE q pi_targ_list q_targ_list L vt :
  ~~ isinstance_Discrete (action_space q) ->
  init q pi_targ_list q_targ_list L vt
  = ([::],
     if pi_targ_list is PyNone
     then inl (TypeError
                 "pi_targ_list must be provided if action space is not discrete")
     else if ~~ isinstance_tuple_list pi_targ_list
     then inl (TypeError "pi_targ_list must be a list or a tuple")
     else if nilp (items pi_targ_list)
     then inl (ValueError "pi_targ_list cannot be empty")
     else if ~~ all isinstance_Policy (items pi_targ_list)
     then inl (TypeError "all pi_targ in pi_targ_list must be a coax.Policy")
     else if ~~ isinstance_tuple_list q_targ_list
     then inl (TypeError "q_targ_list must be a list or a tuple")
     else if nilp (items q_targ_list)
     then inl (ValueError "q_targ_list cannot be empty")
     else if ~~ all isinstance_Q (items q_targ_list)
     then inl (TypeError "all q_targ in q_targ_list must be a coax.Q")
     else if (len q_targ_list * len pi_targ_list < 2)%N
     then inl (ValueError
                 "len(q_targ_list) * len(pi_targ_list) must be at least 2")
     else inr (MkTD q (Qs_of q_targ_list) pi_targ_list L vt)).
Proof.
move=> /negbTE Hd; rewrite /init /_check_input_lists check_pi_targ_listE.
rewrite check_q_targ_listE Hd /when_raise.
case: pi_targ_list => [|l|l|] //=;
  by case: (nilp l); case: (all isinstance_Policy l);
    case: (isinstance_tuple_list q_targ_list);
    case: (nilp (items q_targ_list));
    case: (all isinstance_Q (items q_targ_list)); case: (_ < 2)%N.
Qed.

(** X1. The construction emits the warning about an ignored
    [pi_targ_list] exactly when the action space is discrete and a list was
    supplied, whether or not it then raises; it emits nothing else. *)
Theorem init_warnings q pi_targ_list q_targ_list L vt :
  (init q pi_targ_list q_targ_list L vt).1
  = if isinstance_Discrete (action_space q)
       && (if pi_targ_list is PyNone then false else true)
    then [:: "pi_targ_list is ignored, because action space is discrete"%string]
    else [::].
Proof.
case Hd: (isinstance_Discrete _); last by rewrite init_continuousE ?Hd.
by rewrite init_discreteE //; case: pi_targ_list.
Qed.

Lemma singleton_Q (l : seq pyitem) :
  ~~ nilp l -> all isinstance_Q l -> (size l < 2)%N -> exists x, l = [:: PyQ x].
Proof. by case: l => [|[p|x|] [|y l]] //= _ _ _; exists x. Qed.

Lemma singleton_Policy (l : seq pyitem) :
  ~~ nilp l -> all isinstance_Policy l -> (size l < 2)%N ->
  exists p, l = [:: PyPolicy p].
Proof. by case: l => [|[p|x|] [|y l]] //= _ _ _; exists p. Qed.

(** X2. With a discrete action space, the consistency check of the
    constructor is what raises exactly when [q_targ_list] is a list or
    tuple of one Q-function; shorter and ill-typed lists are reported by
    the input checks. *)
Theorem init_discrete_consistency_error q pi_targ_list q_targ_list L vt :
  isinstance_Discrete (action_space q) ->
  (init q pi_targ_list q_targ_list L vt).2
  = inl (ValueError "len(q_targ_list) must be at least 2")
  <-> isinstance_tuple_list q_targ_list
      /\ exists x, items q_targ_list = [:: PyQ x].
Proof.
move=> Hd; rewrite init_discreteE //=; split.
  case E1: (isinstance_tuple_list _) => //=; case E2: (nilp _) => //=.
  case E3: (all _ _) => //=; case E4: (_ < 2)%N => //= _; split=> //.
  by apply: singleton_Q; rewrite ?E2.
by case=> -> [x E]; rewrite /len E.
Qed.

(** X3. With a non-discrete action space, the consistency check is what
    raises exactly when both lists are valid and hold one element each. *)
Theorem init_continuous_consistency_error q pi_targ_list q_targ_list L vt :
  ~~ isinstance_Discrete (action_space q) ->
  (init q pi_targ_list q_targ_list L vt).2
  = inl (ValueError "len(q_targ_list) * len(pi_targ_list) must be at least 2")
  <-> [/\ isinstance_tuple_list pi_targ_list, isinstance_tuple_list q_targ_list,
          exists p, items pi_targ_list = [:: PyPolicy p]
        & exists x, items q_targ_list = [:: PyQ x]].
Proof.
move=> Hd; rewrite init_continuousE //=; split; last first.
  case=> E1 E2 [p Ep] [x Ex]; rewrite /len E1 E2 Ep Ex /=.
  by case: pi_targ_list E1 {Ep}.
have HN : (if pi_targ_list is PyNone then true else false) ->
          ~~ isinstance_tuple_list pi_targ_list by case: pi_targ_list.
case E0: (if pi_targ_list is PyNone then true else false).
  by case: pi_targ_list E0 {HN}.
have -> : forall (T : Type) (a b : T),
    (if pi_targ_list is PyNone then a else b) = b by case: pi_targ_list E0 {HN}.
case E1: (isinstance_tuple_list pi_targ_list) => //=.
case E2: (nilp (items pi_targ_list)) => //=.
case E3: (all _ (items pi_targ_list)) => //=.
case E4: (isinstance_tuple_list q_targ_list) => //=.
case E5: (nilp (items q_targ_list)) => //=.
case E6: (all _ (items q_targ_list)) => //=.
case E7: (_ < 2)%N => //= _.
have H1 : (len pi_targ_list < 2)%N.
  move: E7 E5; rewrite /nilp /len.
  by case: (size (items q_targ_list)) => [|[|n]] //=; rewrite ?mul1n // mulSn mulSn; case: (size _) => [|[|m]].
have H2 : (len q_targ_list < 2)%N.
  move: E7 E2; rewrite /nilp /len mulnC.
  by case: (size (items pi_targ_list)) => [|[|n]] //=; rewrite ?mul1n // mulSn mulSn; case: (size _) => [|[|m]].
split=> //; first by apply: singleton_Policy; rewrite ?E2.
by apply: singleton_Q; rewrite ?E5.
Qed.

(** X4. An invalid [pi_targ_list] is reported first: the outcome of the
    construction then does not depend on [q_targ_list]. *)
Theorem init_pi_targ_list_error_first q pi_targ_list q_targ_list q_targ_list' L vt :
  raised (check_pi_targ_list q pi_targ_list) ->
  init q pi_targ_list q_targ_list L vt = init q pi_targ_list q_targ_list' L vt.
Proof.
rewrite /init /_check_input_lists /raised.
by case: (check_pi_targ_list q pi_targ_list) => w [e|[]].
Qed.

Lemma PyQ_Qs_of (l : seq pyitem) :
  all isinstance_Q l
  -> [seq PyQ x | x <- pmap (fun x => if x is PyQ y then Some y else None) l] = l.
Proof. by elim: l => [|[p|x|] l IH] //= /IH ->. Qed.

Lemma policies_of_all (v : pyval) :
  isinstance_tuple_list v -> all isinstance_Policy (items v) ->
  exists2 pis, policies_of v = Some pis & [seq PyPolicy p | p <- pis] = items v.
Proof.
rewrite /policies_of => -> /=.
elim: (items v) => [_|[p|x|] l IH] //=; first by exists [::].
by move=> /IH [pis -> E]; exists (p :: pis) => //=; rewrite E.
Qed.

(** X5. A construction that returns hands back an object holding the
    given Q-functions in their order, and guarantees [target_func] at
    least two pairs to evaluate: two or more target Q-functions when the
    action space is discrete; otherwise a list of policies, the one
    supplied, whose length times the number of target Q-functions is at
    least two. *)
Theorem init_returns_valid_object (q0 : Q) (pi_list0 q_list0 : pyval) L vt
    (self : ClippedDoubleQLearning) :
  (init q0 pi_list0 q_list0 L vt).2 = inr self ->
  [/\ [seq PyQ x | x <- q_targ_list self] = items q_list0,
      q self = q0
    & if isinstance_Discrete (action_space q0)
      then is_true (2 <= size (q_targ_list self))%N
      else exists2 pis, policies_of (pi_targ_list self) = Some pis
             & [seq PyPolicy p | p <- pis] = items pi_list0
               /\ (2 <= size (q_targ_list self) * size pis)%N].
Proof.
have Hsz l : all isinstance_Q l ->
    size (pmap (fun x => if x is PyQ y then Some y else None) l) = size l.
  by move=> /PyQ_Qs_of {2}<-; rewrite size_map.
case Hd: (isinstance_Discrete (action_space q0)).
  rewrite init_discreteE //=.
  case: (isinstance_tuple_list _) => //=; case: (nilp _) => //=.
  case E3: (all _ _) => //=; case E4: (_ < 2)%N => //= -[<-] /=.
  by rewrite /Qs_of PyQ_Qs_of // Hsz // leqNgt -/(len _) E4.
rewrite init_continuousE ?Hd //=.
case E0: pi_list0 => [|l|l|] //=;
  case E2: (nilp l) => //=; case E3: (all _ l) => //=;
  case: (isinstance_tuple_list _) => //=; case: (nilp _) => //=;
  case E6: (all _ _) => //=; case E7: (_ < 2)%N => //= -[<-] /=;
  rewrite /Qs_of PyQ_Qs_of //; split=> //.
- have [pis Ep Ei] := @policies_of_all (PyList l) isT E3; exists pis => //.
  by split=> //; rewrite Hsz // leqNgt -(size_map PyPolicy pis) Ei -/(len _) E7.
- have [pis Ep Ei] := @policies_of_all (PyTuple l) isT E3; exists pis => //.
  by split=> //; rewrite Hsz // leqNgt -(size_map PyPolicy pis) Ei -/(len _) E7.
Qed.

End ConstructionOutcome.

(** ** More on the TD-target *)

Section TargetStructure.

Context {R : realFieldType} {F : Framework R}.
Implicit Types (self : ClippedDoubleQLearning) (rngs : rngseq).
Implicit Types (target_params : bundle params) (target_state : bundle fstate).
Implicit Types (S_next : sbatch) (transition_batch : TransitionBatch.t).

Local Arguments advance : simpl never.
Local Arguments draw : simpl never.

Lemma evaluate_on_size (qs : seq (Q * params * fstate)) S_next (A_next : mat R)
    rngs res rngs' :
  evaluate_on qs S_next A_next rngs = Some (res, rngs') -> size res = size qs.
Proof.
rewrite /evaluate_on; elim: qs rngs res rngs' => [|[[q_j p_j] s_j] qs IH] rngs res rngs'.
  by case=> <-.
rewrite for_append_cons bind_next /= /ret.
case E: (for_append _ _ _) => [[l r]|] // [<- _] /=.
by rewrite (IH _ _ _ E).
Qed.

Lemma select_evaluate_size (X : Type) (choose : X -> key -> option (mat R))
    (sels : seq X) (qs : seq (Q * params * fstate)) S_next rngs res rngs' :
  select_evaluate choose sels qs S_next rngs = Some (res, rngs') ->
  size res = (size sels * size qs)%N.
Proof.
rewrite /select_evaluate; elim: sels rngs res rngs' => [|x sels IH] rngs res rngs'.
  by case=> <-.
rewrite for_append_cons bind_next bind_lift.
case: (choose x _) => [A_x|] //.
case E1: (evaluate_on _ _ _ _) => [[row r1]|] //.
case E2: (for_append _ _ _) => [[l r2]|] // [<- _].
by rewrite size_cat (evaluate_on_size E1) (IH _ _ _ E2) mulSn.
Qed.

(** X6. When the loops of [target_func] return, they have collected one
    evaluation per ordered pair (selector, target Q-function) and drawn one
    sub-key per selector and one per evaluation. *)
Theorem Q_sa_next_list_of_counts self target_params target_state S_next rngs
    (res : seq (vec R)) rngs' :
  Q_sa_next_list_of self target_params target_state S_next rngs
  = Some (res, rngs') ->
  let m := size (targets self target_params target_state) in
  exists2 n, selector_count self target_params target_state = Some n
    & size res = (n * m)%N /\ rngs' = advance (n * m.+1) rngs.
Proof.
rewrite /Q_sa_next_list_of /selector_count /targets.
set qs := zip3 _ _ _.
case: (isinstance_Discrete _).
  rewrite discrete_Q_sa_next_listE => E; exists (size qs) => //.
  have := select_evaluateP (choose_discrete S_next) qs qs S_next rngs.
  by rewrite E => -[-> _ _]; rewrite (select_evaluate_size E).
rewrite bind_lift; case: (policies_of _) => [pi_list|] //=.
set pis := zip3 _ _ _.
rewrite continuous_Q_sa_next_listE => E; exists (size pis) => //.
have := select_evaluateP (choose_continuous S_next) pis qs S_next rngs.
by rewrite E => -[-> _ _]; rewrite (select_evaluate_size E).
Qed.

(** X7. [target_func] returns only when there is at least one selector
    and at least one target Q-function paired with parameters and state:
    with an empty ['q_targ'] entry in a bundle, or no policy in the
    continuous case, it raises. *)
Theorem target_func_needs_a_pair self target_params target_state (rng : key)
    transition_batch (G : vec R) :
  target_func self target_params target_state rng transition_batch = Some G ->
  (0 < size (targets self target_params target_state))%N
  /\ exists n, selector_count self target_params target_state = Some n.+1.
Proof.
rewrite /target_func.
case E: (Q_sa_next_list_of _ _ _ _ _) => [[res rngs']|] //=.
have [n Hn [Hsz _]] := Q_sa_next_list_of_counts E.
case Es: (stack_last res) => [X|] //= _.
have : (0 < size res)%N by case: (res) Es.
rewrite Hsz muln_gt0 => /andP [Hn0 ->]; split=> //.
by exists n.-1; rewrite prednK.
Qed.

(** X8. A returned target has the shape of [Rn] whenever the batch does
    not consist of a single transition (a single transition would be
    broadcast). *)
Theorem target_func_shape self target_params target_state (rng : key)
    transition_batch (G : vec R) :
  target_func self target_params target_state rng transition_batch = Some G ->
  size (TransitionBatch.Rn transition_batch) != 1%N ->
  size G = size (TransitionBatch.Rn transition_batch).
Proof.
rewrite /target_func.
case: (Q_sa_next_list_of _ _ _ _ _) => [[res rngs']|] //=.
case: (stack_last res) => [X|] //=; case: (min_last X) => [Qmin|] //=.
case: (value_transform self) => f f_inv; rewrite /bootstrapped.
case: (broadcast _ _ _) => [In_Q|] //=.
case E: (broadcast _ _ _) => [G'|] //= [<-] /negbTE H1.
by rewrite size_map (broadcast_size E) H1.
Qed.


Lemma zip_cat_over (T U : Type) (s more : seq T) (t : seq U) :
  (size t <= size s)%N -> zip (s ++ more) t = zip s t.
Proof.
elim: s t => [|x s IH] [|y t] //=; first by case: more.
by rewrite ltnS => /IH ->.
Qed.

(** X10. The target Q-functions are paired with the parameters of the
    bundle by [zip]: those beyond the length of the bundle's ['q_targ']
    entry are silently left out. *)
Theorem target_func_ignores_unpaired self target_params target_state (rng : key)
    transition_batch (more : seq Q) :
  (size (bundle_q_targ target_params) <= size (q_targ_list self))%N ->
  target_func (MkTD (q self) (q_targ_list self ++ more) (pi_targ_list self)
                 (loss_function self) (value_transform self))
    target_params target_state rng transition_batch
  = target_func self target_params target_state rng transition_batch.
Proof.
move=> Hsz; rewrite /target_func /Q_sa_next_list_of /= /zip3.
by rewrite zip_cat_over.
Qed.

End TargetStructure.

(** ** More on the greedy next-action distribution *)

Section GreedyStructure.

Variable R : realFieldType.
Implicit Types (X A : mat R).


(** X12. On a batch that has rows, the distribution is built exactly when
    no row of per-action values is empty: the row-wise maximum of an empty
    row raises. *)
Theorem greedy_A_next_defined X :
  (0 < size X)%N ->
  isSome (greedy_A_next X) = all (fun row => ~~ nilp row) X.
Proof.
move=> _; rewrite /greedy_A_next /max_axis1.
have -> : all (fun row : seq R => ~~ nilp row) X
          = isSome (oseq [seq amax row | row <- X]).
  by elim: X => [|[|x row] X IH] //=; rewrite IH; case: (oseq _).
by case: (oseq _).
Qed.

End GreedyStructure.

(** ** The loss, the TD-error and the diagnostics *)

Section ClosuresTheory.

Context {R : realFieldType} {F : Framework R}.
Implicit Types (self : ClippedDoubleQLearning) (rngs : rngseq).
Implicit Types (target_params : bundle params) (target_state : bundle fstate).

Local Arguments advance : simpl never.
Local Arguments draw : simpl never.

Lemma next_draw rngs :
  next rngs = (draw rngs 0, (next rngs).2)
  /\ next (next rngs).2 = (draw rngs 1, (next (next rngs).2).2).
Proof. by rewrite /draw /advance /=; case: (next rngs) => a b /=; case: (next b). Qed.

(** X13. [loss_func] and [td_error_func] raise together, namely when
    [target_func] does on the first sub-key; and when the online
    Q-function returns the same values in training and in evaluation mode,
    the TD-error is the negated gradient of the loss at the very pair
    [(G, Q)] at which [loss_func] computes the loss. *)
Theorem td_error_func_at_loss_point self (params_ : params) target_params
    (state : fstate) target_state (rng : key)
    (transition_batch : TransitionBatch.t) :
  let S := TransitionBatch.S transition_batch in
  let A := action_preprocessor (q self) (TransitionBatch.A transition_batch) in
  (forall k, (function_type1 (q self) params_ state k S A true).1
             = (function_type1 (q self) params_ state k S A false).1) ->
  match loss_func self params_ target_params state target_state rng
          transition_batch with
  | Some (loss, (loss', G, Qv, S', A', _)) =>
      [/\ loss' = loss, loss = loss_function self G Qv, S' = S, A' = A
        & td_error_func self params_ target_params state target_state rng
            transition_batch
          = Some [seq - d | d <- grad_argnums1 (loss_function self) G Qv]]
  | None =>
      td_error_func self params_ target_params state target_state rng
        transition_batch = None
      /\ target_func self target_params target_state (draw (PRNGSequence rng) 0)
           transition_batch = None
  end.
Proof.
move=> S A Htrain; rewrite /loss_func /td_error_func -/S -/A.
have [-> E2] := next_draw (PRNGSequence rng).
case: (target_func _ _ _ _ _) => [G|] //=.
rewrite E2 -(Htrain (draw (PRNGSequence rng) 1)).
by case: (function_type1 _ _ _ _ _ _ _).
Qed.

Lemma Q_targ_estimateE self target_params target_state (S : sbatch)
    (A : mat R) rngs :
  Q_targ_estimate self target_params target_state S A rngs
  = bind (evaluate_on (targets self target_params target_state) S A)
      (fun l => lift (stack_min l)) rngs.
Proof. by []. Qed.

(** X14. The target-network estimate of the diagnostics draws one sub-key
    per target Q-function and is, row by row, the least of their values at
    [(S, A)]; every target Q-function returned an array of its length. *)
Theorem Q_targ_estimate_least self target_params target_state (S : sbatch)
    (A : mat R) rngs (Q_targ : vec R) rngs' :
  let qs := targets self target_params target_state in
  let value j (x : Q * params * fstate) :=
    (function_type1 x.1.1 x.1.2 x.2 (draw rngs j) S A false).1 in
  Q_targ_estimate self target_params target_state S A rngs
  = Some (Q_targ, rngs') ->
  [/\ rngs' = advance (size qs) rngs,
      forall j x, onth qs j = Some x -> size (value j x) = size Q_targ
    & forall b, (b < size Q_targ)%N ->
        (exists j x, onth qs j = Some x /\ nth 0 Q_targ b = nth 0 (value j x) b)
        /\ (forall j x, onth qs j = Some x ->
              nth 0 Q_targ b <= nth 0 (value j x) b)].
Proof.
move=> qs value; rewrite Q_targ_estimateE /bind -/qs.
have [res -> Hres] := evaluate_onP qs S A rngs.
rewrite /lift /stack_min.
case Es: (stack_last res) => [X|] //=; case Em: (min_last X) => [Qm|] //= [<- <-].
have [_ Hsize Hleast] := stack_min_least Es Em.
have Hin j x : onth qs j = Some x -> value j x \in res.
  by move=> Hj; apply/Hres; exists j, x.
split=> // [j x /Hin /Hsize //|b Hb].
have [Hmem Hle] := Hleast b Hb; split.
  have /mapP [e /Hres [j [x [Hj ->]]] ->] := Hmem.
  by exists j, x.
by move=> j x /Hin He; apply: Hle; apply/mapP; exists (value j x).
Qed.

(** X15. Like the target, the target-network estimate of the diagnostics
    does not depend on the order of the target Q-functions, when their
    values do not depend on the sub-key. *)
Theorem Q_targ_estimate_permutation_invariant self target_params target_state
    (qs qs' : seq (Q * params * fstate)) (S : sbatch) (A : mat R) rngs :
  Permutation.Permutation qs qs' ->
  List.Forall seed_independent qs ->
  Q_targ_estimate (with_targets self qs') (with_q_targ target_params qs')
    (with_q_targ_state target_state qs') S A rngs
  = Q_targ_estimate (with_targets self qs) (with_q_targ target_params qs)
      (with_q_targ_state target_state qs) S A rngs.
Proof.
move=> Hperm /List.Forall_forall Hind.
rewrite !Q_targ_estimateE !targets_with /bind.
have [res -> Hres] := evaluate_onP qs S A rngs.
have [res' -> Hres'] := evaluate_onP qs' S A rngs.
have -> : size qs' = size qs.
  exact: esym (Permutation.Permutation_length Hperm).
suff -> : stack_min res' = stack_min res by [].
apply: stack_min_eq_mem => e; apply/idP/idP.
  case/Hres'=> j [x [Hj ->]].
  have Hin : List.In x qs.
    apply: Permutation.Permutation_in (Permutation.Permutation_sym Hperm) _.
    by apply/onth_In; exists j.
  have /onth_In [i Hi] := Hin; apply/Hres; exists i, x; split=> //.
  by have [H1 _] := Hind _ Hin; apply: H1.
case/Hres=> j [x [Hj ->]].
have Hin : List.In x qs by apply/onth_In; exists j.
have /onth_In [i Hi] := Permutation.Permutation_in _ Hperm Hin.
apply/Hres'; exists i, x; split=> //.
by have [H1 _] := Hind _ Hin; apply: H1.
Qed.

Lemma zip3_map (T U V : Type) (f : T -> U) (g : T -> V) (s : seq T) :
  zip3 s [seq f x | x <- s] [seq g x | x <- s] = [seq (x, f x, g x) | x <- s].
Proof. by rewrite /zip3; elim: s => [|x s IH] //=; rewrite IH. Qed.

(** X16. The bundles built by the properties [target_params] and
    [target_function_state] are aligned with the object: [target_func]
    pairs every target Q-function, and every target policy, with its own
    parameters and its own function state, and leaves none out. *)
Theorem targets_of_own_bundles {Att : Attributes F} self (pi_list : seq Policy) :
  policies_of (pi_targ_list self) = Some pi_list ->
  let target_params_ := target_params self pi_list in
  let target_state_ := target_function_state self pi_list in
  [/\ targets self target_params_ target_state_
      = [seq (x, Q_params x, Q_function_state x) | x <- q_targ_list self],
      zip3 pi_list (bundle_pi_targ target_params_) (bundle_pi_targ target_state_)
      = [seq (pi, Policy_params pi, Policy_function_state pi) | pi <- pi_list]
    & selector_count self target_params_ target_state_
      = Some (if isinstance_Discrete (action_space (q self))
              then size (q_targ_list self) else size pi_list)].
Proof.
move=> Hp /=; rewrite /targets /selector_count /targets /= !zip3_map Hp /=.
by split=> //; case: (isinstance_Discrete _); rewrite ?zip3_map size_map.
Qed.

End ClosuresTheory.

(** ** Instances of the theorems on the concrete collaborators *)

Section Instances.

Import Example.

Lemma target_func_discrete_td :
  target_func discrete_td two_units two_units 0%N batch2 = Some G2.
Proof. by apply/eqP; vm_compute. Defined.

Example target_func_continuous_td :
  target_func continuous_td two_units two_units 0%N batch2 = Some G2_continuous.
Proof. by apply/eqP; vm_compute. Qed.

Example td_error_func_discrete_td :
  td_error_func discrete_td tt two_units tt two_units 0%N batch2
  = Some [:: 1 / 2%:R; 3%:R].
Proof. by apply/eqP; vm_compute. Qed.

Example init_one_Q_raises :
  init q12 PyNone one_Q half_squared_error identity_transform
  = ([::], inl (ValueError "len(q_targ_list) must be at least 2")).
Proof. by []. Qed.

Example init_continuous_without_policies_raises :
  init q_lin1 PyNone two_linear_Qs half_squared_error identity_transform
  = ([::], inl (TypeError
       "pi_targ_list must be provided if action space is not discrete")).
Proof. by []. Qed.

Example init_continuous_one_pair_raises :
  init q_lin1 one_policy (PyList [:: PyQ q_lin1]) half_squared_error
    identity_transform
  = ([::], inl (ValueError
       "len(q_targ_list) * len(pi_targ_list) must be at least 2")).
Proof. by []. Qed.

Example init_continuous_td :
  init q_lin1 one_policy two_linear_Qs half_squared_error identity_transform
  = ([::], inr continuous_td).
Proof. by []. Qed.

Lemma target_func_identity_transform_witness :
  size G2 = size (TransitionBatch.Rn batch2) /\
  forall b, (b < size (TransitionBatch.Rn batch2))%N ->
    exists2 m : rat,
      nth 0 G2 b = nth 0 (TransitionBatch.Rn batch2) b
                   + nth 0 (TransitionBatch.In batch2) b * m
      & (exists i j e,
            pair_evaluation discrete_td two_units two_units (PRNGSequence 0%N)
              (TransitionBatch.S_next batch2) i j = Some e /\ m = nth 0 e b)
        /\ (forall i j e,
            pair_evaluation discrete_td two_units two_units (PRNGSequence 0%N)
              (TransitionBatch.S_next batch2) i j = Some e -> m <= nth 0 e b).
Proof.
apply: (@target_func_identity_transform rat framework discrete_td two_units
          two_units 0%N batch2 G2).
- reflexivity.
- reflexivity.
- by move=> [|[|i]] [|[|j]] e //; vm_compute => -[<-].
- exact: target_func_discrete_td.
Defined.

Lemma target_func_terminal_witness :
  nth 0 G2 1 = (value_transform discrete_td).1 (nth 0 (TransitionBatch.Rn batch2) 1).
Proof.
apply: (@target_func_terminal rat framework discrete_td two_units two_units
          0%N batch2 G2 1%N).
- reflexivity.
- exact: target_func_discrete_td.
- reflexivity.
- reflexivity.
- reflexivity.
Defined.

Lemma target_func_fp_finite :
  target_func_fp id id Rn_fp In_fp evaluations_finite = Some G_finite.
Proof. by apply/eqP; vm_compute. Defined.

Lemma target_func_fp_terminal_witness :
  nth NaN G_finite 1 = id (nth NaN Rn_fp 1).
Proof.
apply: (@target_func_fp_terminal rat id id Rn_fp In_fp evaluations_finite
          [:: Fin 1; Fin 7%:R] G_finite 1%N).
- reflexivity.
- by apply/eqP; vm_compute.
- reflexivity.
- exact: target_func_fp_finite.
- reflexivity.
- reflexivity.
- reflexivity.
Defined.

(** With target values that are infinite on the terminal row the target
    of that row is NaN, not [f(Rn)]. *)
Lemma target_func_fp_terminal_infinite :
  [/\ target_func_fp id id Rn_fp In_fp evaluations_infinite = Some G_infinite,
      nth NaN In_fp 1 = Fin 0
    & nth NaN G_infinite 1 <> id (nth NaN Rn_fp 1)].
Proof.
split; [by apply/eqP; vm_compute | reflexivity |].
by move=> /eqP; vm_compute.
Qed.



Lemma target_func_two_identical_witness :
  target_func twin_td two_units two_units 0%N batch4
  = Some (single_network_target (value_transform twin_td)
            (TransitionBatch.Rn batch4) (TransitionBatch.In batch4)
            (function_type1 q12 tt tt 9%N (TransitionBatch.S_next batch4)
               (argmax_action
                  (function_type2 q12 tt tt 7%N
                     (TransitionBatch.S_next batch4) false).1) false).1).
Proof.
apply: (@target_func_two_identical rat framework twin_td two_units two_units
          0%N batch4 q12 q12 tt tt tt tt 7%N 9%N).
- reflexivity.
- reflexivity.
- reflexivity.
- reflexivity.
- by split.
- by split.
- by vm_compute.
- reflexivity.
- reflexivity.
Defined.

(** The values of [noisy_Q] depend on the parity of the sub-key only. *)
Lemma noisy_Q_parity (k : nat) (S : nat) (A : mat rat) :
  (function_type1 noisy_Q tt tt k S A false).1
  = (function_type1 noisy_Q tt tt (odd k) S A false).1.
Proof.
rewrite /=; apply: eq_map => b; congr (_ + _).
by rewrite /noise !oddD oddb.
Qed.

(** Without independence of the sub-key the statement fails: [noisy_Q],
    listed twice, is extensionally identical to itself, but the four pair
    evaluations differ and their minimum is the value of no single
    evaluation, whichever sub-keys the single network is handed. *)
Lemma target_func_two_identical_seed_dependent :
  [/\ isinstance_Discrete (action_space (q noisy_td)),
      q_targ_list noisy_td = [:: noisy_Q; noisy_Q],
      extensionally_identical (noisy_Q, tt, tt) (noisy_Q, tt, tt)
    & forall k k' : nat,
        target_func noisy_td two_units two_units 0%N batch4
        <> Some (single_network_target (value_transform noisy_td)
                   (TransitionBatch.Rn batch4) (TransitionBatch.In batch4)
                   (function_type1 noisy_Q tt tt k'
                      (TransitionBatch.S_next batch4)
                      (argmax_action
                         (function_type2 noisy_Q tt tt k
                            (TransitionBatch.S_next batch4) false).1)
                      false).1)].
Proof.
split; [reflexivity | reflexivity | by split |].
move=> k k'; rewrite noisy_Q_parity.
by case: (odd k') => /eqP; vm_compute.
Qed.

Lemma td_error_func_negative_gradient_witness :
  let Qv := (function_type1 (q discrete_td) tt tt (draw (PRNGSequence 0%N) 1)
               (TransitionBatch.S batch2)
               (action_preprocessor (q discrete_td) (TransitionBatch.A batch2))
               false).1 in
  let dL_dQ := grad_argnums1 (loss_function discrete_td) G2 Qv in
  let td_error := td_error_func discrete_td tt two_units tt two_units 0%N batch2 in
  td_error = Some [seq - d | d <- dL_dQ]
  /\ forall G_Q Q_G : vec rat,
       broadcast (fun a b => a - b) G2 Qv = Some G_Q ->
       broadcast (fun a b => a - b) Qv G2 = Some Q_G ->
       (td_error = Some G_Q <-> dL_dQ = Q_G).
Proof.
apply: (@td_error_func_negative_gradient rat framework discrete_td tt two_units
          tt two_units 0%N batch2 G2).
exact: target_func_discrete_td.
Defined.

Lemma init_discrete_q_targ_list_witness :
  ((len one_Q < 2)%N ->
   raised (init q12 PyNone one_Q half_squared_error identity_transform))
  /\ raised (init q12 PyNone one_Q half_squared_error identity_transform)
     = ~~ [&& isinstance_tuple_list one_Q, all isinstance_Q (items one_Q)
            & (2 <= len one_Q)%N].
Proof.
apply: (@init_discrete_q_targ_list rat framework q12 PyNone one_Q
          half_squared_error identity_transform).
reflexivity.
Defined.

Lemma init_continuous_pi_targ_list_witness :
  raised (init q_lin1 PyNone two_linear_Qs half_squared_error identity_transform)
  = [|| true, ~~ isinstance_tuple_list PyNone, len PyNone == 0%N,
        ~~ all isinstance_Policy (items PyNone),
        (len two_linear_Qs * len PyNone < 2)%N
      | ~~ [&& isinstance_tuple_list two_linear_Qs, (0 < len two_linear_Qs)%N
             & all isinstance_Q (items two_linear_Qs)]].
Proof.
apply: (@init_continuous_pi_targ_list rat framework q_lin1 PyNone two_linear_Qs
          half_squared_error identity_transform).
reflexivity.
Defined.

Lemma init_discrete_pi_targ_list_ignored_witness :
  exists self self0 : ClippedDoubleQLearning,
    [/\ init q12 one_policy two_Qs half_squared_error identity_transform
        = ([:: "pi_targ_list is ignored, because action space is discrete"%string],
           inr self),
        init q12 PyNone two_Qs half_squared_error identity_transform
        = ([::], inr self0)
      & forall (target_params target_params' : bundle params)
               (target_state target_state' : bundle fstate) (rng : key)
               (transition_batch : TransitionBatch.t),
          bundle_q_targ target_params' = bundle_q_targ target_params ->
          bundle_q_targ target_state' = bundle_q_targ target_state ->
          target_func self target_params' target_state' rng transition_batch
          = target_func self0 target_params target_state rng transition_batch].
Proof.
apply: (@init_discrete_pi_targ_list_ignored rat framework q12 one_policy two_Qs
          half_squared_error identity_transform).
- reflexivity.
- discriminate.
- reflexivity.
Defined.

Lemma target_func_scenario_witness :
  target_func twin_td two_units two_units 0%N batch4
  = Some (nseq 4 (198%:R / 100%:R)).
Proof.
apply: (@target_func_scenario rat framework twin_td two_units two_units 0%N
          batch4 q12 q12 tt tt tt tt).
- reflexivity.
- reflexivity.
- reflexivity.
- reflexivity.
- reflexivity.
- reflexivity.
- reflexivity.
- reflexivity.
- reflexivity.
- by move=> k; apply/eqP; vm_compute.
- by move=> k; apply/eqP; vm_compute.
Defined.

Lemma target_func_permutation_invariant_witness :
  target_func (with_targets discrete_td targets_b) (with_q_targ two_units targets_b)
    (with_q_targ_state two_units targets_b) 0%N batch2
  = target_func (with_targets discrete_td targets_a) (with_q_targ two_units targets_a)
      (with_q_targ_state two_units targets_a) 0%N batch2.
Proof.
apply: (@target_func_permutation_invariant rat framework discrete_td two_units
          two_units targets_a targets_b 0%N batch2).
- exact: Permutation.perm_swap.
- by do 2![constructor; first by split].
Defined.

Lemma init_discrete_consistency_error_witness :
  (init q12 PyNone one_Q half_squared_error identity_transform).2
  = inl (ValueError "len(q_targ_list) must be at least 2")
  <-> isinstance_tuple_list one_Q /\ exists x, items one_Q = [:: PyQ x].
Proof.
apply: (@init_discrete_consistency_error rat framework q12 PyNone one_Q
          half_squared_error identity_transform).
reflexivity.
Defined.

Lemma init_continuous_consistency_error_witness :
  (init q_lin1 one_policy one_linear_Q half_squared_error identity_transform).2
  = inl (ValueError "len(q_targ_list) * len(pi_targ_list) must be at least 2")
  <-> [/\ isinstance_tuple_list one_policy, isinstance_tuple_list one_linear_Q,
          exists p, items one_policy = [:: PyPolicy p]
        & exists x, items one_linear_Q = [:: PyQ x]].
Proof.
apply: (@init_continuous_consistency_error rat framework q_lin1 one_policy
          one_linear_Q half_squared_error identity_transform).
reflexivity.
Defined.

Lemma init_pi_targ_list_error_first_witness :
  init q_lin1 PyNone two_linear_Qs half_squared_error identity_transform
  = init q_lin1 PyNone one_Q half_squared_error identity_transform.
Proof.
apply: (@init_pi_targ_list_error_first rat framework q_lin1 PyNone
          two_linear_Qs one_Q half_squared_error identity_transform).
reflexivity.
Defined.

Lemma init_returns_valid_object_witness :
  [/\ [seq PyQ x | x <- q_targ_list continuous_td] = items two_linear_Qs,
      q continuous_td = q_lin1
    & if isinstance_Discrete (action_space q_lin1)
      then is_true (2 <= size (q_targ_list continuous_td))%N
      else exists2 pis, policies_of (pi_targ_list continuous_td) = Some pis
             & [seq PyPolicy p | p <- pis] = items one_policy
               /\ (2 <= size (q_targ_list continuous_td) * size pis)%N].
Proof.
apply: (@init_returns_valid_object rat framework q_lin1 one_policy
          two_linear_Qs half_squared_error identity_transform continuous_td).
reflexivity.
Defined.

Lemma Q_sa_next_list_of_discrete_td :
  Q_sa_next_list_of discrete_td two_units two_units 2%N 0%N
  = Some (evaluations2, 6%N).
Proof. by apply/eqP; vm_compute. Defined.

Lemma Q_sa_next_list_of_counts_witness :
  exists2 n, selector_count discrete_td two_units two_units = Some n
    & size evaluations2
      = (n * size (targets discrete_td two_units two_units))%N
      /\ 6%N = advance
                 (n * (size (targets discrete_td two_units two_units)).+1) 0%N.
Proof.
exact: (@Q_sa_next_list_of_counts rat framework discrete_td two_units two_units
          2%N 0%N evaluations2 6%N Q_sa_next_list_of_discrete_td).
Defined.

Lemma target_func_needs_a_pair_witness :
  (0 < size (targets discrete_td two_units two_units))%N
  /\ exists n, selector_count discrete_td two_units two_units = Some n.+1.
Proof.
exact: (@target_func_needs_a_pair rat framework discrete_td two_units two_units
          0%N batch2 G2 target_func_discrete_td).
Defined.

Lemma target_func_shape_witness :
  size G2 = size (TransitionBatch.Rn batch2).
Proof.
apply: (@target_func_shape rat framework discrete_td two_units two_units 0%N
          batch2 G2).
- exact: target_func_discrete_td.
- reflexivity.
Defined.


Lemma target_func_ignores_unpaired_witness :
  target_func discrete_td_more two_units two_units 0%N batch2
  = target_func discrete_td two_units two_units 0%N batch2.
Proof.
apply: (@target_func_ignores_unpaired rat framework discrete_td two_units
          two_units 0%N batch2 [:: q12]).
reflexivity.
Defined.


Lemma td_error_func_at_loss_point_witness :
  match loss_func discrete_td tt two_units tt two_units 0%N batch2 with
  | Some (loss, (loss', G, Qv, S', A', _)) =>
      [/\ loss' = loss, loss = loss_function discrete_td G Qv,
          S' = TransitionBatch.S batch2,
          A' = action_preprocessor (q discrete_td) (TransitionBatch.A batch2)
        & td_error_func discrete_td tt two_units tt two_units 0%N batch2
          = Some [seq - d | d <- grad_argnums1 (loss_function discrete_td) G Qv]]
  | None =>
      td_error_func discrete_td tt two_units tt two_units 0%N batch2 = None
      /\ target_func discrete_td two_units two_units (draw (PRNGSequence 0%N) 0)
           batch2 = None
  end.
Proof.
apply: (@td_error_func_at_loss_point rat framework discrete_td tt two_units tt
          two_units 0%N batch2).
by move=> k.
Defined.

Lemma Q_targ_estimate_discrete_td :
  Q_targ_estimate discrete_td two_units two_units 2%N actions2 0%N
  = Some (Q_targ2, 2%N).
Proof. by apply/eqP; vm_compute. Defined.

Lemma Q_targ_estimate_least_witness :
  let qs := targets discrete_td two_units two_units in
  let value j (x : Q * params * fstate) :=
    (function_type1 x.1.1 x.1.2 x.2 (draw 0%N j) 2%N actions2 false).1 in
  [/\ 2%N = advance (size qs) 0%N,
      forall j x, onth qs j = Some x -> size (value j x) = size Q_targ2
    & forall b, (b < size Q_targ2)%N ->
        (exists j x, onth qs j = Some x /\ nth 0 Q_targ2 b = nth 0 (value j x) b)
        /\ (forall j x, onth qs j = Some x ->
              nth 0 Q_targ2 b <= nth 0 (value j x) b)].
Proof.
exact: (@Q_targ_estimate_least rat framework discrete_td two_units two_units
          2%N actions2 0%N Q_targ2 2%N Q_targ_estimate_discrete_td).
Defined.

Lemma Q_targ_estimate_permutation_invariant_witness :
  Q_targ_estimate (with_targets discrete_td targets_b)
    (with_q_targ two_units targets_b) (with_q_targ_state two_units targets_b)
    2%N actions2 0%N
  = Q_targ_estimate (with_targets discrete_td targets_a)
      (with_q_targ two_units targets_a) (with_q_targ_state two_units targets_a)
      2%N actions2 0%N.
Proof.
apply: (@Q_targ_estimate_permutation_invariant rat framework discrete_td
          two_units two_units targets_a targets_b 2%N actions2 0%N).
- exact: Permutation.perm_swap.
- by do 2![constructor; first by split].
Defined.

Lemma targets_of_own_bundles_witness :
  let target_params_ := target_params continuous_td [:: pi3] in
  let target_state_ := target_function_state continuous_td [:: pi3] in
  [/\ targets continuous_td target_params_ target_state_
      = [seq (x, Q_params x, Q_function_state x) | x <- q_targ_list continuous_td],
      zip3 [:: pi3] (bundle_pi_targ target_params_) (bundle_pi_targ target_state_)
      = [seq (pi, Policy_params pi, Policy_function_state pi) | pi <- [:: pi3]]
    & selector_count continuous_td target_params_ target_state_
      = Some (if isinstance_Discrete (action_space (q continuous_td))
              then size (q_targ_list continuous_td) else size [:: pi3])].
Proof.
apply: (@targets_of_own_bundles rat framework attributes continuous_td [:: pi3]).
reflexivity.
Defined.

Lemma target_func_returns_witness :
  exists G, target_func discrete_td two_units two_units 0%N batch2 = Some G.
Proof.
apply: (@target_func_returns rat framework discrete_td two_units two_units 0%N
          batch2 2%N).
- reflexivity.
- reflexivity.
- by move=> [|[|i]] // _; vm_compute.
- by exists 0%N, 0%N, [:: 2%:R; 2%:R]; apply/eqP; vm_compute.
- by move=> [|[|i]] [|[|j]] e //; vm_compute => -[<-].
Defined.

Lemma greedy_A_next_defined_witness :
  isSome (greedy_A_next values_tie) = all (fun row => ~~ nilp row) values_tie.
Proof. by apply: (@greedy_A_next_defined rat values_tie). Defined.

End Instances.
